(** * go-sqs-poller: the poll / dispatch / acknowledge worker

    A shallow embedding of [worker/worker.go] and the properties of its
    message processor ([handleMessage]), dispatcher ([run]) and poller
    ([Start]).

    Modelling conventions.
    - A Go pointer to a scalar ([*string], [*int64]) is an [option]; [nil]
      is [None].
    - A value of the Go interface [error] is [option error]: [None] is the
      nil interface, [Some e] carries the dynamic type as the constructor
      of [e].
    - The worker's observable actions (calls on the queue client, calls of
      the handler, log entries) are appended to a trace, in program order.
    - The queue service and the handler are external: they are functions
      on the memory [Mem], which holds the package variable
      [DefaultConfig], the caller-allocated [Config] objects and an
      arbitrary external state.
    - [config.Log] is a non-nil logger in every [Config]; a nil interface
      there makes line 77 panic and is outside the model. *)

From Stdlib Require Import List String ZArith Lia Bool Arith DecimalString
  PeanoNat Permutation.
Import ListNotations.
Open Scope string_scope.
Open Scope list_scope.

Set Implicit Arguments.

(** ** Data model *)

(** Modelled from the spec: [LoggerIFace] and the default [logger] live in
    a file of the package that is not part of the sources at hand.  The
    spec gives the interface three methods, Debug, Info and Error, each
    taking a string; [DefaultLogger] stands for [&logger{}]. *)
Inductive LoggerIFace : Type :=
| DefaultLogger
| CustomLogger (id : nat).

Inductive Severity : Type := SevDebug | SevInfo | SevError.

Record Config : Type := {
  QueueURL : string;
  MaxNumberOfMessage : Z;
  WaitTimeSecond : Z;
  Log : LoggerIFace
}.

(** [sqs.Message], reduced to the fields a handler and the worker read. *)
Record Message : Type := {
  MessageId : option string;
  Body : option string;
  ReceiptHandle : option string
}.

Record InvalidEventError : Type := {
  event : string;
  msg : string
}.

(** Dynamic types an [error] value can have.  [InvalidEventError_ptr] is a
    non-nil [*InvalidEventError]; [wrapError] is what [fmt.Errorf] builds
    for a [%w] verb; [errorString] stands for every other error type. *)
Inductive error : Type :=
| InvalidEventError_val (e : InvalidEventError)
| InvalidEventError_ptr (e : InvalidEventError)
| wrapError (text : string) (inner : error)
| errorString (text : string).

Definition InvalidEventError_Error (e : InvalidEventError) : string :=
  ("[Invalid Event: " ++ event e ++ "] " ++ msg e)%string.

(** Method [Error()] of each dynamic type. *)
Definition Error (err : error) : string :=
  match err with
  | InvalidEventError_val e => InvalidEventError_Error e
  | InvalidEventError_ptr e => InvalidEventError_Error e
  | wrapError text _ => text
  | errorString text => text
  end.

Definition NewInvalidEventError (event msg : string) : InvalidEventError :=
  {| event := event; msg := msg |}.

(** [fmt.Errorf(prefix + "%w", inner)]. *)
Definition Errorf_w (prefix : string) (inner : error) : error :=
  wrapError (prefix ++ Error inner)%string inner.

(** The type assertion [err.(InvalidEventError)] in its comma-ok form. *)
Definition assert_InvalidEventError (err : option error)
  : InvalidEventError * bool :=
  match err with
  | Some (InvalidEventError_val e) => (e, true)
  | _ => ({| event := ""; msg := "" |}, false)
  end.

Definition DefaultConfigForQueueURL (url : string) : Config :=
  {| QueueURL := url;
     MaxNumberOfMessage := 10;
     WaitTimeSecond := 20;
     Log := DefaultLogger |}.

(** Initial value of the package variable [DefaultConfig]. *)
Definition DefaultConfig : Config :=
  {| QueueURL := "";
     MaxNumberOfMessage := 10;
     WaitTimeSecond := 20;
     Log := DefaultLogger |}.

(** Requests of the queue client. *)
Record ReceiveMessageInput : Type := {
  rQueueUrl : option string;
  MaxNumberOfMessages : option Z;
  MessageAttributeNames : list (option string);
  WaitTimeSeconds : option Z
}.

Record ReceiveMessageOutput : Type := {
  Messages : list Message
}.

Record DeleteMessageInput : Type := {
  dQueueUrl : option string;
  dReceiptHandle : option string
}.

(** [aws.String], [aws.Int64], [aws.StringValue]. *)
Definition aws_String (s : string) : option string := Some s.
Definition aws_Int64 (z : Z) : option Z := Some z.
Definition aws_StringValue (p : option string) : string :=
  match p with Some s => s | None => "" end.

(** The verb [%d]. *)
Definition fmt_d (z : Z) : string := NilZero.string_of_int (Z.to_int z).

(** ** Pointers to configurations *)

(** A non-nil [*Config] is the address of the package variable or of an
    object the caller allocated. *)
Inductive ConfigRef : Type :=
| RefDefault
| RefHeap (addr : nat).

Definition ConfigPtr : Type := option ConfigRef.

(** ** Observable actions *)

Inductive Event : Type :=
| EvLog (lg : LoggerIFace) (sev : Severity) (text : string)
| EvStdLog (text : string)
| EvHandle (m : Message)
| EvReceive (p : ReceiveMessageInput)
| EvDelete (p : DeleteMessageInput).

Definition is_delete (e : Event) : bool :=
  match e with EvDelete _ => true | _ => false end.

Definition is_receive (e : Event) : bool :=
  match e with EvReceive _ => true | _ => false end.

Definition is_handle (e : Event) : bool :=
  match e with EvHandle _ => true | _ => false end.

Definition is_info (e : Event) : bool :=
  match e with EvLog _ SevInfo _ => true | _ => false end.

Definition count (p : Event -> bool) (t : list Event) : nat :=
  List.length (filter p t).

Section Worker.

(** State of the external world: the queue service and whatever the
    handler keeps. *)
Variable Ext : Type.

Record Mem : Type := {
  var_DefaultConfig : Config;
  heap : nat -> Config;
  ext : Ext
}.

Record State : Type := {
  mem : Mem;
  trace : list Event
}.

Definition load (r : ConfigRef) (m : Mem) : Config :=
  match r with
  | RefDefault => var_DefaultConfig m
  | RefHeap a => heap m a
  end.

(** The capabilities the worker consumes. *)
Definition Handler : Type := Message -> Mem -> option error * Mem.

Definition HandlerFunc : Type := Message -> Mem -> option error * Mem.

Definition HandleMessage (f : HandlerFunc) : Handler := f.

Record SQS : Type := {
  ReceiveMessage :
    ReceiveMessageInput -> Mem -> (ReceiveMessageOutput * option error) * Mem;
  DeleteMessage : DeleteMessageInput -> Mem -> option error * Mem
}.

(** ** A state monad over [State] *)

Definition M (A : Type) : Type := State -> A * State.

Definition ret {A : Type} (a : A) : M A := fun s => (a, s).

Definition bind {A B : Type} (c : M A) (k : A -> M B) : M B :=
  fun s => let (a, s') := c s in k a s'.

Notation "x <- c ;; k" := (bind c (fun x => k))
  (at level 61, c at next level, right associativity).
Notation "c ;;; k" := (bind c (fun _ => k))
  (at level 61, right associativity).

Definition emit (e : Event) : M unit :=
  fun s => (tt, {| mem := mem s; trace := trace s ++ [e] |}).

(** An external call: recorded in the trace, then run on the memory. *)
Definition extcall {A : Type} (e : Event) (f : Mem -> A * Mem) : M A :=
  fun s => let (a, m') := f (mem s) in
           (a, {| mem := m'; trace := trace s ++ [e] |}).

(** [config.<field>], read through the pointer at the time of the access. *)
Definition deref (config : ConfigRef) : M Config :=
  fun s => (load config (mem s), s).

(** [config.Log.Debug(text)], [config.Log.Info(text)],
    [config.Log.Error(text)]. *)
Definition Log_call (config : ConfigRef) (sev : Severity) (text : string)
  : M unit :=
  cfg <- deref config ;;
  emit (EvLog (Log cfg) sev text).

(** Lines 127-137 of [handleMessage]: the deletion path. *)
Definition handleMessage_delete (config : ConfigRef) (svc : SQS) (m : Message)
  : M (option error) :=
  cfg <- deref config ;;
  let params := {| dQueueUrl := aws_String (QueueURL cfg);
                   dReceiptHandle := ReceiptHandle m |} in
  err <- extcall (EvDelete params) (DeleteMessage svc params) ;;
  match err with
  | Some e => ret (Some e)
  | None =>
      Log_call config SevDebug
        ("worker: deleted message from queue: "
           ++ aws_StringValue (ReceiptHandle m))%string ;;;
      ret None
  end.

Definition handleMessage (config : ConfigRef) (svc : SQS) (m : Message)
  (h : Handler) : M (option error) :=
  err <- extcall (EvHandle m) (h m) ;;
  match err with
  | Some e =>
      if snd (assert_InvalidEventError err) then
        Log_call config SevError (Error e) ;;;
        handleMessage_delete config svc m
      else ret (Some e)
  | None => handleMessage_delete config svc m
  end.

(** ** The dispatcher

    [run] starts one goroutine per message and joins them with a
    [sync.WaitGroup].  The goroutines and the function itself are threads
    of a small machine; a schedule picks which thread moves next.  A
    goroutine moves in three steps: the call of [handleMessage] (taken as
    one step), the error log entry when that call failed, and the deferred
    [wg.Done()]. *)

Inductive MainPc : Type :=
| MInfo                (* line 101: the info entry *)
| MAdd                 (* line 104: wg.Add(numMessages) *)
| MSpawn (i : nat)     (* lines 105-113: the go statement of index i *)
| MWait                (* line 115: wg.Wait() *)
| MReturned.

Inductive UnitPc : Type :=
| UCall                (* line 109: handleMessage(config, svc, m, h) *)
| ULog (err : error)   (* line 110: config.Log.Error(err.Error()) *)
| UDone                (* line 108: the deferred wg.Done() *)
| UExit.

Inductive Tid : Type :=
| Main
| Unit (k : nat).

Record RunState : Type := {
  mpc : MainPc;
  wg : Z;
  units : list (Message * UnitPc);
  st : State
}.

Section Run.

Variables (config : ConfigRef) (svc : SQS) (h : Handler)
  (messages : list Message).

Definition numMessages : nat := List.length messages.

Definition run_init (s : State) : RunState :=
  {| mpc := MInfo; wg := 0; units := []; st := s |}.

Definition step_main (r : RunState) : option RunState :=
  match mpc r with
  | MInfo =>
      let text := ("worker: Received " ++ fmt_d (Z.of_nat numMessages)
                     ++ " messages")%string in
      Some {| mpc := MAdd; wg := wg r; units := units r;
              st := snd (Log_call config SevInfo text (st r)) |}
  | MAdd =>
      Some {| mpc := MSpawn 0; wg := wg r + Z.of_nat numMessages;
              units := units r; st := st r |}
  | MSpawn i =>
      match nth_error messages i with
      | Some mi =>
          Some {| mpc := MSpawn (S i); wg := wg r;
                  units := units r ++ [(mi, UCall)]; st := st r |}
      | None =>
          Some {| mpc := MWait; wg := wg r; units := units r; st := st r |}
      end
  | MWait =>
      if (wg r =? 0)%Z
      then Some {| mpc := MReturned; wg := wg r; units := units r;
                   st := st r |}
      else None
  | MReturned => None
  end.

(** Replace the program counter of goroutine [k]. *)
Fixpoint set_pc (k : nat) (pc : UnitPc) (us : list (Message * UnitPc))
  : list (Message * UnitPc) :=
  match us, k with
  | [], _ => []
  | (mk, _) :: rest, O => (mk, pc) :: rest
  | u :: rest, S k' => u :: set_pc k' pc rest
  end.

Definition step_unit (k : nat) (r : RunState) : option RunState :=
  match nth_error (units r) k with
  | None => None
  | Some (mk, UCall) =>
      let (err, s') := handleMessage config svc mk h (st r) in
      let pc := match err with Some e => ULog e | None => UDone end in
      Some {| mpc := mpc r; wg := wg r; units := set_pc k pc (units r);
              st := s' |}
  | Some (_, ULog e) =>
      Some {| mpc := mpc r; wg := wg r; units := set_pc k UDone (units r);
              st := snd (Log_call config SevError (Error e) (st r)) |}
  | Some (_, UDone) =>
      Some {| mpc := mpc r; wg := (wg r - 1)%Z;
              units := set_pc k UExit (units r); st := st r |}
  | Some (_, UExit) => None
  end.

Definition step (t : Tid) (r : RunState) : option RunState :=
  match t with
  | Main => step_main r
  | Unit k => step_unit k r
  end.

(** Run a schedule; a pick that cannot move is skipped. *)
Fixpoint exec (sched : list Tid) (r : RunState) : RunState :=
  match sched with
  | [] => r
  | t :: rest =>
      match step t r with
      | Some r' => exec rest r'
      | None => exec rest r
      end
  end.

Definition exited (u : Message * UnitPc) : bool :=
  match snd u with UExit => true | _ => false end.

(** Index of the first goroutine that has not exited. *)
Fixpoint first_live (us : list (Message * UnitPc)) : option nat :=
  match us with
  | [] => None
  | u :: rest =>
      if exited u then option_map S (first_live rest) else Some 0
  end.

(** The default scheduler: a goroutine that can move goes first, lowest
    index first; otherwise the main thread. *)
Definition pick (r : RunState) : Tid :=
  match first_live (units r) with
  | Some k => Unit k
  | None => Main
  end.

Fixpoint drain (fuel : nat) (r : RunState) : RunState :=
  match fuel with
  | O => r
  | S fuel' =>
      match step (pick r) r with
      | Some r' => drain fuel' r'
      | None => r
      end
  end.

(** Steps a complete execution of [run] takes at most. *)
Definition run_bound : nat := 4 * numMessages + 4.

(** [run], under a schedule: the machine follows [sched], then the
    default scheduler until nothing can move. *)
Definition run_final (sched : list Tid) (s : State) : RunState :=
  drain run_bound (exec sched (run_init s)).

Definition run (sched : list Tid) : M unit :=
  fun s => (tt, st (run_final sched s)).

End Run.

(** ** The poller *)

Definition receive_request (cfg : Config) : ReceiveMessageInput :=
  {| rQueueUrl := aws_String (QueueURL cfg);
     MaxNumberOfMessages := aws_Int64 (MaxNumberOfMessage cfg);
     MessageAttributeNames := [aws_String "All"];
     WaitTimeSeconds := aws_Int64 (WaitTimeSecond cfg) |}.

(** One iteration of the loop of [Start], lines 74-94.  The argument and
    the result are the value of the local variable [config] before and
    after the iteration; [sched] schedules the goroutines of [run]. *)
Definition Start_body (svc : SQS) (h : Handler) (sched : list Tid)
  (config : ConfigPtr) : M ConfigPtr :=
  let c := match config with None => RefDefault | Some r => r end in
  Log_call c SevDebug "worker: Start Polling" ;;;
  cfg <- deref c ;;
  let params := receive_request cfg in
  out <- extcall (EvReceive params) (ReceiveMessage svc params) ;;
  match snd out with
  | Some e => emit (EvStdLog (Error e)) ;;; ret (Some c)
  | None =>
      if (0 <? List.length (Messages (fst out)))%nat
      then run c svc h (Messages (fst out)) sched ;;; ret (Some c)
      else ret (Some c)
  end.

(** The first [length scheds] iterations of [Start]; the loop itself has
    no exit. *)
Fixpoint Start (svc : SQS) (h : Handler) (scheds : list (list Tid))
  (config : ConfigPtr) : M ConfigPtr :=
  match scheds with
  | [] => ret config
  | sched :: rest =>
      c' <- Start_body svc h sched config ;;
      Start svc h rest c'
  end.

(** A caller that keeps the pointer in a variable [c] of its own and
    runs [Start(c, svc, h)]: the call copies the value of [c] into the
    parameter [config].  The result pairs the caller's [c] with the
    parameter, both as they stand after the iterations. *)
Definition call_Start (svc : SQS) (h : Handler) (scheds : list (list Tid))
  (c : ConfigPtr) : M (ConfigPtr * ConfigPtr) :=
  config' <- Start svc h scheds c ;;
  ret (c, config').

End Worker.

Arguments ret {Ext A} a _.
Arguments emit {Ext} e _.

(** * Vocabulary of the properties *)

Definition is_debug (e : Event) : bool :=
  match e with EvLog _ SevDebug _ => true | _ => false end.

Definition is_stdlog (e : Event) : bool :=
  match e with EvStdLog _ => true | _ => false end.

(** Log entries and delete calls of [handleMessage] and of the goroutine
    around it. *)
Definition unit_event (e : Event) : bool :=
  match e with
  | EvLog _ SevError _ | EvLog _ SevDebug _ | EvDelete _ => true
  | _ => false
  end.

Definition run_event (e : Event) : bool := is_handle e || unit_event e.

(** Goroutines that have called [handleMessage]. *)
Definition started (u : Message * UnitPc) : bool :=
  match snd u with UCall => false | _ => true end.

(** Goroutines that have run their deferred [wg.Done()]. *)
Definition exits (us : list (Message * UnitPc)) : nat :=
  List.length (filter exited us).

(** Steps a goroutine still has to take. *)
Definition unit_left (u : Message * UnitPc) : nat :=
  match snd u with
  | UCall => 3
  | ULog _ => 2
  | UDone => 1
  | UExit => 0
  end.

Definition units_left (us : list (Message * UnitPc)) : nat :=
  list_sum (map unit_left us).

(** The pointer an iteration works with: the argument, or the address of
    [DefaultConfig] when the argument is nil. *)
Definition effective (config : ConfigPtr) : ConfigRef :=
  match config with None => RefDefault | Some r => r end.

Section ProcessorVocabulary.

Variable Ext : Type.
Variables (config : ConfigRef) (m : Message).

(** The delete request [handleMessage] builds when the memory is [mm]. *)
Definition delete_request (mm : Mem Ext) : DeleteMessageInput :=
  {| dQueueUrl := Some (QueueURL (load config mm));
     dReceiptHandle := ReceiptHandle m |}.

(** The debug entry written after a successful delete. *)
Definition deleted_entry (mm : Mem Ext) : Event :=
  EvLog (Log (load config mm)) SevDebug
    ("worker: deleted message from queue: "
       ++ aws_StringValue (ReceiptHandle m))%string.

End ProcessorVocabulary.

Section DispatcherVocabulary.

Variable Ext : Type.
Variables (config : ConfigRef) (messages : list Message).

Local Abbreviation n := (numMessages messages).

(** Steps the main thread still has to take, those of the goroutines it
    has yet to start included. *)
Definition main_left (pc : MainPc) : nat :=
  match pc with
  | MInfo => 4 * n + 4
  | MAdd => 4 * n + 3
  | MSpawn i => 4 * (n - i) + 2
  | MWait => 1
  | MReturned => 0
  end.

Definition steps_left (r : RunState Ext) : nat :=
  main_left (mpc r) + units_left (units r).

(** The control invariant of the machine: the goroutines started so far
    are those of the first messages, in order, and the counter of the
    wait group is the number of goroutines yet to finish. *)
Definition Inv (r : RunState Ext) : Prop :=
  map fst (units r) = firstn (List.length (units r)) messages /\
  match mpc r with
  | MInfo | MAdd => units r = [] /\ wg r = 0%Z
  | MSpawn i =>
      List.length (units r) = i /\ i <= n /\
      wg r = (Z.of_nat n - Z.of_nat (exits (units r)))%Z
  | MWait =>
      List.length (units r) = n /\
      wg r = (Z.of_nat n - Z.of_nat (exits (units r)))%Z
  | MReturned =>
      List.length (units r) = n /\ wg r = 0%Z /\ exits (units r) = n
  end.

Definition info_entry (s0 : State Ext) : Event :=
  EvLog (Log (load config (mem s0))) SevInfo
    ("worker: Received " ++ fmt_d (Z.of_nat n) ++ " messages")%string.

(** The trace invariant: [run] first writes the info entry; after it come
    only events of the goroutines, with one handler call for each
    goroutine that has started its work. *)
Definition TraceInv (s0 : State Ext) (r : RunState Ext) : Prop :=
  match mpc r with
  | MInfo => st r = s0
  | _ =>
      exists d,
        trace (st r) = trace s0 ++ info_entry s0 :: d /\
        forallb run_event d = true /\
        Permutation (filter is_handle d)
          (map EvHandle (map fst (filter started (units r))))
  end.

End DispatcherVocabulary.

Section PollerVocabulary.

Variable Ext : Type.
Variable svc : SQS Ext.

Definition polling_entry (config : ConfigPtr) (s : State Ext) : Event :=
  EvLog (Log (load (effective config) (mem s))) SevDebug
    "worker: Start Polling".

(** The receive request of the iteration that starts in state [s]. *)
Definition request (config : ConfigPtr) (s : State Ext)
  : ReceiveMessageInput :=
  receive_request (load (effective config) (mem s)).

(** Answer of the queue client to that request. *)
Definition received (config : ConfigPtr) (s : State Ext)
  : ReceiveMessageOutput * option error :=
  fst (ReceiveMessage svc (request config s) (mem s)).

(** State in which the receive call returns. *)
Definition after_receive (config : ConfigPtr) (s : State Ext) : State Ext :=
  {| mem := snd (ReceiveMessage svc (request config s) (mem s));
     trace :=
       trace s ++ [polling_entry config s; EvReceive (request config s)] |}.

(** Whether the iteration hands a batch to [run]. *)
Definition dispatches (config : ConfigPtr) (s : State Ext) : bool :=
  match snd (received config s) with
  | Some _ => false
  | None => (0 <? List.length (Messages (fst (received config s))))%nat
  end.

End PollerVocabulary.

(** * Vocabulary of further properties *)

Definition is_error_entry (e : Event) : bool :=
  match e with EvLog _ SevError _ => true | _ => false end.

(** Whether a handler result leads [handleMessage] to the delete call:
    nil, or an error of dynamic type [InvalidEventError]. *)
Definition acknowledges (herr : option error) : bool :=
  match herr with
  | None => true
  | Some (InvalidEventError_val _) => true
  | Some _ => false
  end.

Definition failed (err : option error) : bool :=
  match err with Some _ => true | None => false end.

(** Every delete call in [t] comes after a handler call for a message
    with the same receipt handle. *)
Definition acks_follow_handling (t : list Event) : Prop :=
  forall t1 p t2,
    t = t1 ++ EvDelete p :: t2 ->
    exists m, In (EvHandle m) t1 /\ ReceiptHandle m = dReceiptHandle p.


(** An event without its logger and its queue URL. *)
Definition erase (e : Event) : Event :=
  match e with
  | EvLog _ sev text => EvLog DefaultLogger sev text
  | EvDelete p =>
      EvDelete {| dQueueUrl := None; dReceiptHandle := dReceiptHandle p |}
  | _ => e
  end.

(** The events lines 127-137 write for [m] under the configuration [cfg]
    when the delete call answers [derr]. *)
Definition delete_chunk (cfg : Config) (derr : option error) (m : Message)
  : list Event :=
  EvDelete {| dQueueUrl := Some (QueueURL cfg);
              dReceiptHandle := ReceiptHandle m |}
  :: match derr with
     | None =>
         [EvLog (Log cfg) SevDebug
            ("worker: deleted message from queue: "
               ++ aws_StringValue (ReceiptHandle m))%string]
     | Some _ => []
     end.

(** The events [handleMessage] writes for [m] when the handler answers
    [herr] and the delete call answers [derr]. *)
Definition hm_chunk (cfg : Config) (herr derr : option error) (m : Message)
  : list Event :=
  EvHandle m
  :: match herr with
     | Some (InvalidEventError_val e) =>
         EvLog (Log cfg) SevError (InvalidEventError_Error e)
         :: delete_chunk cfg derr m
     | Some _ => []
     | None => delete_chunk cfg derr m
     end.

(** What [handleMessage] returns then. *)
Definition hm_result (herr derr : option error) : option error :=
  match herr with
  | Some (InvalidEventError_val _) => derr
  | Some e => Some e
  | None => derr
  end.

(** The events of the whole goroutine of [m], lines 106-112. *)
Definition unit_chunk (cfg : Config) (herr derr : option error) (m : Message)
  : list Event :=
  hm_chunk cfg herr derr m
    ++ match hm_result herr derr with
       | Some e => [EvLog (Log cfg) SevError (Error e)]
       | None => []
       end.

(** The part of its events a goroutine has written when it stands at
    [pc]. *)
Definition so_far (cfg : Config) (answer dout : Message -> option error)
  (u : Message * UnitPc) : list Event :=
  match snd u with
  | UCall => []
  | ULog _ => hm_chunk cfg (answer (fst u)) (dout (fst u)) (fst u)
  | UDone | UExit => unit_chunk cfg (answer (fst u)) (dout (fst u)) (fst u)
  end.

(** The error a goroutine is about to log is the one [handleMessage]
    returned. *)
Definition unit_ok (answer dout : Message -> option error)
  (u : Message * UnitPc) : Prop :=
  match snd u with
  | ULog e => hm_result (answer (fst u)) (dout (fst u)) = Some e
  | _ => True
  end.

Section FurtherVocabulary.

Variable Ext : Type.

(** Events a computation has added to the trace of [s] when it ends in
    [s']. *)
Definition appended (s s' : State Ext) : list Event :=
  skipn (List.length (trace s)) (trace s').

(** Collaborators that keep a property [P] of the memory. *)
Definition handler_keeps (P : Mem Ext -> Prop) (h : Handler Ext) : Prop :=
  forall m mm, P mm -> P (snd (h m mm)).

Definition delete_keeps (P : Mem Ext -> Prop) (svc : SQS Ext) : Prop :=
  forall p mm, P mm -> P (snd (DeleteMessage svc p mm)).

Definition receive_keeps (P : Mem Ext -> Prop) (svc : SQS Ext) : Prop :=
  forall p mm, P mm -> P (snd (ReceiveMessage svc p mm)).

(** Number of picks of a schedule that make a thread move. *)
Fixpoint moves (config : ConfigRef) (svc : SQS Ext) (h : Handler Ext)
  (messages : list Message) (sched : list Tid) (r : RunState Ext) : nat :=
  match sched with
  | [] => 0
  | t :: rest =>
      match step config svc h messages t r with
      | Some r' => S (moves config svc h messages rest r')
      | None => moves config svc h messages rest r
      end
  end.

(** A property [R] of the memory and a property [Q] of the events written
    since [s] that hold in a state of [run]. *)
Definition ChunkInv (R : Mem Ext -> Prop) (Q : list Event -> Prop)
  (s : State Ext) (r : RunState Ext) : Prop :=
  R (mem (st r)) /\ exists d, trace (st r) = trace s ++ d /\ Q d.

(** The events written since [s0], the info entry apart, are those the
    goroutines have written so far, up to their order and up to [ab]. *)
Definition TallyInv (P : Mem Ext -> Prop) (ab : Event -> Event)
  (cfg : Config) (answer dout : Message -> option error)
  (s0 : State Ext) (r : RunState Ext) : Prop :=
  P (mem (st r)) /\
  Forall (unit_ok answer dout) (units r) /\
  exists d,
    trace (st r) = trace s0 ++ d /\
    Permutation (map ab (filter (fun e => negb (is_info e)) d))
      (map ab (flat_map (so_far cfg answer dout) (units r))).

End FurtherVocabulary.

(** ** Concrete collaborators

    A small world used to evaluate the worker: the external state counts
    the calls made so far. *)
Module Demo.

Definition queue : string := "https://sqs.example/queue".

Definition mem0 : Mem nat :=
  {| var_DefaultConfig := DefaultConfig;
     heap := fun _ => DefaultConfigForQueueURL queue;
     ext := 0 |}.

Definition st0 : State nat := {| mem := mem0; trace := [] |}.

Definition tick (m : Mem nat) : Mem nat :=
  {| var_DefaultConfig := var_DefaultConfig m;
     heap := heap m;
     ext := S (ext m) |}.

(** A handler that answers every message with [r]. *)
Definition always (r : option error) : Handler nat :=
  fun _ m => (r, tick m).

Definition msg_a : Message :=
  {| MessageId := Some "a"; Body := Some "{}"; ReceiptHandle := Some "rh-a" |}.

Definition msg_b : Message :=
  {| MessageId := Some "b"; Body := Some "{}"; ReceiptHandle := Some "rh-b" |}.

Definition bad_event : InvalidEventError :=
  NewInvalidEventError "evt-1" "no such kind".

Definition timeout_err : error := errorString "handler: timeout".

Definition denied : error := errorString "AccessDenied".

(** A queue client whose receive call yields [batch] and whose delete
    call yields [del]. *)
Definition client (batch : list Message) (rcv del : option error) : SQS nat :=
  {| ReceiveMessage := fun _ m => ({| Messages := batch |}, rcv, tick m);
     DeleteMessage := fun _ m => (del, tick m) |}.

(** A handler that points the package variable at another queue. *)
Definition retarget (url : string) : Handler nat :=
  fun _ m =>
    (None,
     {| var_DefaultConfig :=
          {| QueueURL := url;
             MaxNumberOfMessage := MaxNumberOfMessage (var_DefaultConfig m);
             WaitTimeSecond := WaitTimeSecond (var_DefaultConfig m);
             Log := Log (var_DefaultConfig m) |};
        heap := heap m;
        ext := ext m |}).

Definition msg_c : Message :=
  {| MessageId := Some "c"; Body := Some "{}"; ReceiptHandle := Some "rh-c" |}.

(** A handler that rejects message a as an invalid event, accepts
    message b and fails on every other message. *)
Definition verdict (m : Message) : option error :=
  match MessageId m with
  | Some id =>
      if String.eqb id "a" then Some (InvalidEventError_val bad_event)
      else if String.eqb id "b" then None
      else Some timeout_err
  | None => Some timeout_err
  end.

Definition picky : Handler nat := fun m mm => (verdict m, tick mm).

Definition queue_urls (t : list Event) : list (option string) :=
  flat_map (fun e => match e with
                     | EvReceive p => [rQueueUrl p]
                     | _ => []
                     end) t.

End Demo.

(** * Properties of the message processor *)

Section MessageProcessor.

Variable Ext : Type.
Variables (config : ConfigRef) (svc : SQS Ext) (m : Message) (h : Handler Ext).

Lemma count_app (p : Event -> bool) (t u : list Event) :
  count p (t ++ u) = count p t + count p u.
Proof.
  unfold count. rewrite filter_app, length_app. reflexivity.
Qed.

(** What the deletion path does, from any state. *)
Lemma handleMessage_delete_spec (s : State Ext) :
  let req := delete_request config m (mem s) in
  let derr := fst (DeleteMessage svc req (mem s)) in
  let m2 := snd (DeleteMessage svc req (mem s)) in
  let out := handleMessage_delete config svc m s in
  fst out = derr /\
  mem (snd out) = m2 /\
  trace (snd out) =
    trace s ++ [EvDelete req]
      ++ match derr with None => [deleted_entry config m m2] | Some _ => [] end.
Proof.
  unfold handleMessage_delete, delete_request, deleted_entry, bind, deref,
    extcall, Log_call, emit, ret, aws_String.
  cbn.
  destruct (DeleteMessage svc _ (mem s)) as [[e|] m2]; cbn.
  - repeat split. 
  - repeat split. rewrite <- app_assoc. reflexivity.
Qed.

(** What [handleMessage] does once the handler has answered. *)
Lemma handleMessage_unfold (s : State Ext) :
  handleMessage config svc m h s =
    let s1 := {| mem := snd (h m (mem s)); trace := trace s ++ [EvHandle m] |} in
    match fst (h m (mem s)) with
    | Some (InvalidEventError_val e) =>
        handleMessage_delete config svc m
          {| mem := mem s1;
             trace := trace s1
               ++ [EvLog (Log (load config (mem s1))) SevError
                     (Error (InvalidEventError_val e))] |}
    | Some e => (Some e, s1)
    | None => handleMessage_delete config svc m s1
    end.
Proof.
  unfold handleMessage, bind, extcall, Log_call, deref, emit, ret.
  destruct (h m (mem s)) as [[[e|e|t i|t]|] m1]; reflexivity.
Qed.

(** C1.  When the handler answers with an error of dynamic type
    [InvalidEventError], [handleMessage] writes that error's text at error
    severity, then issues one delete call and no other, and what it
    returns is the result of that delete call (nil when the delete
    succeeds), whatever the handler's error was: the invalid-event error
    does not reach the caller. *)
Theorem C1_invalid_event_logged_deleted_absorbed
  (s : State Ext) (e : InvalidEventError) :
  fst (h m (mem s)) = Some (InvalidEventError_val e) ->
  let m1 := snd (h m (mem s)) in
  let req := delete_request config m m1 in
  let derr := fst (DeleteMessage svc req m1) in
  let m2 := snd (DeleteMessage svc req m1) in
  let out := handleMessage config svc m h s in
  fst out = derr /\
  (derr = None -> fst out = None) /\
  trace (snd out) =
    trace s
      ++ [EvHandle m;
          EvLog (Log (load config m1)) SevError (InvalidEventError_Error e);
          EvDelete req]
      ++ match derr with None => [deleted_entry config m m2] | Some _ => [] end /\
  count is_delete (trace (snd out)) = S (count is_delete (trace s)).
Proof.
  intros Hh. cbv zeta. rewrite handleMessage_unfold, Hh. cbv zeta.
  match goal with |- context [handleMessage_delete _ _ _ ?s1] =>
    destruct (handleMessage_delete_spec s1) as (Hr & _ & Ht) end.
  cbn [mem trace] in *. unfold delete_request in *.
  rewrite Hr, Ht. cbn [Error].
  repeat split.
  - intros ->. reflexivity.
  - rewrite <- !app_assoc. reflexivity.
  - rewrite !count_app.
    destruct (fst (DeleteMessage svc _ _)); cbn; lia.
Qed.

(** C2.  When the handler answers with a non-nil error that the type
    assertion does not classify as invalid-event, [handleMessage] returns
    that very error and issues no delete call: after the handler call it
    does nothing at all. *)
Theorem C2_other_error_returned_no_delete (s : State Ext) (e : error) :
  fst (h m (mem s)) = Some e ->
  snd (assert_InvalidEventError (Some e)) = false ->
  let out := handleMessage config svc m h s in
  fst out = Some e /\
  trace (snd out) = trace s ++ [EvHandle m] /\
  mem (snd out) = snd (h m (mem s)) /\
  count is_delete (trace (snd out)) = count is_delete (trace s).
Proof.
  intros Hh Hc. cbv zeta. rewrite handleMessage_unfold, Hh. cbv zeta.
  destruct e as [e|e|t i|t]; cbn in Hc; try discriminate;
    cbn [fst snd mem trace]; repeat split; rewrite count_app; cbn; lia.
Qed.

(** C3.  When the handler answers nil, [handleMessage] issues one delete
    call and no other; its request carries the receipt handle of the
    message and the queue URL read through [config]; when that call
    succeeds the debug entry naming the receipt handle is written and nil
    is returned. *)
Theorem C3_success_deletes_once (s : State Ext) :
  fst (h m (mem s)) = None ->
  let m1 := snd (h m (mem s)) in
  let req := {| dQueueUrl := Some (QueueURL (load config m1));
                dReceiptHandle := ReceiptHandle m |} in
  let derr := fst (DeleteMessage svc req m1) in
  let m2 := snd (DeleteMessage svc req m1) in
  let out := handleMessage config svc m h s in
  filter is_delete (trace (snd out)) =
    filter is_delete (trace s) ++ [EvDelete req] /\
  count is_delete (trace (snd out)) = S (count is_delete (trace s)) /\
  (derr = None ->
   fst out = None /\
   trace (snd out) =
     trace s
       ++ [EvHandle m; EvDelete req;
           EvLog (Log (load config m2)) SevDebug
             ("worker: deleted message from queue: "
                ++ aws_StringValue (ReceiptHandle m))%string]).
Proof.
  intros Hh. cbv zeta. rewrite handleMessage_unfold, Hh. cbv zeta.
  match goal with |- context [handleMessage_delete _ _ _ ?s1] =>
    destruct (handleMessage_delete_spec s1) as (Hr & _ & Ht) end.
  cbn [mem trace] in *. unfold delete_request, deleted_entry in *.
  rewrite Hr, Ht.
  repeat split.
  - rewrite !filter_app. cbn [filter is_delete].
    destruct (fst (DeleteMessage svc _ _)); cbn;
      rewrite <- ?app_assoc, ?app_nil_r; reflexivity.
  - rewrite !count_app.
    destruct (fst (DeleteMessage svc _ _)); cbn; lia.
  - assumption.
  - rewrite H. rewrite <- !app_assoc. reflexivity.
Qed.

(** C4.  On the deletion path (the handler answered nil or an
    invalid-event error), when the delete call fails [handleMessage]
    returns the error of that call and writes no debug entry: the delete
    call is its last action. *)
Theorem C4_delete_failure_returned (s : State Ext) (de : error) :
  let herr := fst (h m (mem s)) in
  let m1 := snd (h m (mem s)) in
  herr = None \/ snd (assert_InvalidEventError herr) = true ->
  fst (DeleteMessage svc (delete_request config m m1) m1) = Some de ->
  let out := handleMessage config svc m h s in
  fst out = Some de /\
  trace (snd out) =
    trace s ++ [EvHandle m]
      ++ match herr with
         | Some x => [EvLog (Log (load config m1)) SevError (Error x)]
         | None => []
         end
      ++ [EvDelete (delete_request config m m1)] /\
  count is_debug (trace (snd out)) = count is_debug (trace s).
Proof.
  cbv zeta. intros Hpath Hdel. rewrite handleMessage_unfold. cbv zeta.
  destruct (fst (h m (mem s))) as [[e|e|t i|t]|] eqn:Hh;
    try (destruct Hpath as [Hp|Hp]; cbn in Hp; discriminate).
  - match goal with |- context [handleMessage_delete _ _ _ ?s1] =>
      destruct (handleMessage_delete_spec s1) as (Hr & _ & Ht) end.
    cbn [mem trace] in *. rewrite Hr, Ht, Hdel.
    repeat split.
    + rewrite <- !app_assoc. reflexivity.
    + rewrite !count_app. cbn. lia.
  - match goal with |- context [handleMessage_delete _ _ _ ?s1] =>
      destruct (handleMessage_delete_spec s1) as (Hr & _ & Ht) end.
    cbn [mem trace] in *. rewrite Hr, Ht, Hdel.
    repeat split.
    + rewrite <- !app_assoc. reflexivity.
    + rewrite !count_app. cbn. lia.
Qed.

(** C10.  The type assertion accepts the dynamic type [InvalidEventError]
    and no other.  An error that is a pointer to an [InvalidEventError],
    or that wraps an error of any kind, takes the branch of the other
    errors: it is returned as it is and no delete call is issued, although
    the pointer prints the text of the value it points to, and a wrapper
    built with a bare [%w] prints the text of the error it wraps. *)
Theorem C10_only_value_type_is_invalid_event
  (s : State Ext) (err : error) (e : InvalidEventError) (text : string)
  (inner : error) :
  fst (h m (mem s)) = Some err ->
  err = InvalidEventError_ptr e \/ err = wrapError text inner ->
  let out := handleMessage config svc m h s in
  snd (assert_InvalidEventError (Some err)) = false /\
  fst out = Some err /\
  trace (snd out) = trace s ++ [EvHandle m] /\
  count is_delete (trace (snd out)) = count is_delete (trace s) /\
  Error (InvalidEventError_ptr e) = Error (InvalidEventError_val e) /\
  Error (Errorf_w "" (InvalidEventError_val e))
    = Error (InvalidEventError_val e) /\
  (forall x : option error,
     snd (assert_InvalidEventError x) = true <->
     exists v, x = Some (InvalidEventError_val v)).
Proof.
  intros Hh Hk. cbv zeta. rewrite handleMessage_unfold, Hh. cbv zeta.
  assert (Hx : forall x : option error,
             snd (assert_InvalidEventError x) = true <->
             exists v, x = Some (InvalidEventError_val v)).
  { intros [[v|v|t i|t]|]; cbn; split; intros Hv;
      try discriminate; try (destruct Hv; discriminate).
    - exists v. reflexivity.
    - reflexivity. }
  destruct Hk as [-> | ->]; cbn [fst snd mem trace];
    rewrite count_app; cbn; repeat split; try lia; apply Hx.
Qed.

End MessageProcessor.

(** *** The message processor on the demo world *)

Import Demo.

Lemma C1_witness :
  fst (always (Some (InvalidEventError_val bad_event)) msg_a (mem st0))
    = Some (InvalidEventError_val bad_event) /\
  fst (handleMessage (RefHeap 0) (client [] None None) msg_a
         (always (Some (InvalidEventError_val bad_event))) st0) = None /\
  count is_delete
    (trace (snd (handleMessage (RefHeap 0) (client [] None None) msg_a
                   (always (Some (InvalidEventError_val bad_event))) st0)))
    = 1.
Proof.
  split; [reflexivity|].
  pose proof (@C1_invalid_event_logged_deleted_absorbed nat (RefHeap 0)
                (client [] None None) msg_a
                (always (Some (InvalidEventError_val bad_event)))
                st0 bad_event eq_refl) as P.
  cbv zeta in P. destruct P as (_ & P0 & _ & P1).
  split; [apply P0; reflexivity | exact P1].
Defined.

Lemma C2_witness :
  fst (always (Some timeout_err) msg_a (mem st0)) = Some timeout_err /\
  snd (assert_InvalidEventError (Some timeout_err)) = false /\
  fst (handleMessage (RefHeap 0) (client [] None None) msg_a
         (always (Some timeout_err)) st0) = Some timeout_err /\
  count is_delete
    (trace (snd (handleMessage (RefHeap 0) (client [] None None) msg_a
                   (always (Some timeout_err)) st0))) = 0.
Proof.
  split; [reflexivity|]. split; [reflexivity|].
  pose proof (@C2_other_error_returned_no_delete nat (RefHeap 0)
                (client [] None None) msg_a (always (Some timeout_err))
                st0 timeout_err eq_refl eq_refl) as P.
  cbv zeta in P. destruct P as (P0 & _ & _ & P1).
  split; [exact P0 | exact P1].
Defined.

Lemma C3_witness :
  fst (always None msg_a (mem st0)) = None /\
  filter is_delete
    (trace (snd (handleMessage (RefHeap 0) (client [] None None) msg_a
                   (always None) st0)))
    = [EvDelete {| dQueueUrl := Some queue; dReceiptHandle := Some "rh-a" |}].
Proof.
  split; [reflexivity|].
  pose proof (@C3_success_deletes_once nat (RefHeap 0)
                (client [] None None) msg_a (always None) st0 eq_refl) as P.
  cbv zeta in P. destruct P as (P0 & _).
  exact P0.
Defined.

Lemma C4_witness :
  fst (always None msg_a (mem st0)) = None /\
  fst (handleMessage (RefHeap 0) (client [] None (Some denied)) msg_a
         (always None) st0) = Some denied /\
  count is_debug
    (trace (snd (handleMessage (RefHeap 0) (client [] None (Some denied))
                   msg_a (always None) st0))) = 0.
Proof.
  split; [reflexivity|].
  pose proof (@C4_delete_failure_returned nat (RefHeap 0)
                (client [] None (Some denied)) msg_a (always None) st0
                denied (or_introl eq_refl) eq_refl) as P.
  cbv zeta in P. destruct P as (P0 & _ & P1).
  split; [exact P0 | exact P1].
Defined.

Lemma C10_witness :
  fst (always (Some (InvalidEventError_ptr bad_event)) msg_a (mem st0))
    = Some (InvalidEventError_ptr bad_event) /\
  fst (handleMessage (RefHeap 0) (client [] None None) msg_a
         (always (Some (InvalidEventError_ptr bad_event))) st0)
    = Some (InvalidEventError_ptr bad_event) /\
  count is_delete
    (trace (snd (handleMessage (RefHeap 0) (client [] None None) msg_a
                   (always (Some (InvalidEventError_ptr bad_event))) st0)))
    = 0.
Proof.
  split; [reflexivity|].
  pose proof (@C10_only_value_type_is_invalid_event nat (RefHeap 0)
                (client [] None None) msg_a
                (always (Some (InvalidEventError_ptr bad_event)))
                st0 (InvalidEventError_ptr bad_event) bad_event ""
                timeout_err eq_refl (or_introl eq_refl)) as P.
  cbv zeta in P. destruct P as (_ & P0 & _ & P1 & _).
  split; [exact P0 | exact P1].
Defined.

(** * Configuration defaults *)

(** C9.  [DefaultConfigForQueueURL url] carries [url], a batch size of
    10, a wait of 20 seconds and the default logger; the package variable
    [DefaultConfig] starts with the empty queue URL and the same three
    defaults. *)
Theorem C9_default_configurations (url : string) :
  QueueURL (DefaultConfigForQueueURL url) = url /\
  MaxNumberOfMessage (DefaultConfigForQueueURL url) = 10%Z /\
  WaitTimeSecond (DefaultConfigForQueueURL url) = 20%Z /\
  Log (DefaultConfigForQueueURL url) = DefaultLogger /\
  QueueURL DefaultConfig = "" /\
  MaxNumberOfMessage DefaultConfig
    = MaxNumberOfMessage (DefaultConfigForQueueURL url) /\
  WaitTimeSecond DefaultConfig
    = WaitTimeSecond (DefaultConfigForQueueURL url) /\
  Log DefaultConfig = Log (DefaultConfigForQueueURL url) /\
  DefaultConfig = DefaultConfigForQueueURL "".
Proof.
  repeat split.
Qed.

(** * Properties of the dispatcher *)

Section Dispatcher.

Variable Ext : Type.
Variables (config : ConfigRef) (svc : SQS Ext) (h : Handler Ext)
  (messages : list Message).

Local Abbreviation n := (numMessages messages).
Local Abbreviation mstep := (step config svc h messages).
Local Abbreviation mexec := (exec config svc h messages).
Local Abbreviation mdrain := (drain config svc h messages).

Lemma set_pc_length k pc (us : list (Message * UnitPc)) :
  List.length (set_pc k pc us) = List.length us.
Proof.
  revert k; induction us as [|[mk p] us IH]; intros [|k]; cbn; auto.
Qed.

Lemma set_pc_fst k pc (us : list (Message * UnitPc)) :
  map fst (set_pc k pc us) = map fst us.
Proof.
  revert k; induction us as [|[mk p] us IH]; intros [|k]; cbn; auto.
  now rewrite IH.
Qed.

Lemma set_pc_exits k pc (us : list (Message * UnitPc)) mk pc0 :
  nth_error us k = Some (mk, pc0) ->
  exits (set_pc k pc us) + (if exited (mk, pc0) then 1 else 0)
  = exits us + (if exited (mk, pc) then 1 else 0).
Proof.
  unfold exits.
  revert k; induction us as [|[mk' p] us IH]; intros [|k] Hk; cbn in Hk;
    try discriminate.
  - injection Hk as -> ->. cbn [set_pc filter].
    unfold exited. cbn [snd].
    destruct pc, pc0; cbn [List.length]; lia.
  - cbn [set_pc filter]. specialize (IH _ Hk).
    destruct (exited (mk', p)); cbn [List.length]; lia.
Qed.

Lemma set_pc_left k pc (us : list (Message * UnitPc)) mk pc0 :
  nth_error us k = Some (mk, pc0) ->
  units_left (set_pc k pc us) + unit_left (mk, pc0)
  = units_left us + unit_left (mk, pc).
Proof.
  unfold units_left.
  revert k; induction us as [|[mk' p] us IH]; intros [|k] Hk; cbn in Hk;
    try discriminate.
  - injection Hk as -> ->. cbn [set_pc map list_sum fold_right]. lia.
  - cbn [set_pc map list_sum fold_right]. specialize (IH _ Hk).
    unfold list_sum in IH. lia.
Qed.

Lemma exits_le (us : list (Message * UnitPc)) : exits us <= List.length us.
Proof. apply filter_length_le. Qed.

Lemma exits_all (us : list (Message * UnitPc)) :
  exits us = List.length us <-> forallb exited us = true.
Proof.
  unfold exits. induction us as [|u us IH]; cbn; [tauto|].
  destruct (exited u); cbn.
  - rewrite <- IH. lia.
  - pose proof (filter_length_le exited us). split; [lia | discriminate].
Qed.

Lemma firstn_snoc (A : Type) (l : list A) i x :
  nth_error l i = Some x -> firstn (S i) l = firstn i l ++ [x].
Proof.
  revert i; induction l as [|a l IH]; intros [|i] Hi; cbn in *;
    try discriminate.
  - now injection Hi as ->.
  - now rewrite (IH _ Hi).
Qed.

Lemma exits_snoc_call (us : list (Message * UnitPc)) mk :
  exits (us ++ [(mk, UCall)]) = exits us.
Proof.
  unfold exits. rewrite filter_app, length_app. cbn. lia.
Qed.

Lemma Inv_init (s : State Ext) : Inv messages (run_init s).
Proof. split; cbn; auto. Qed.

Lemma Inv_step t (r r' : RunState Ext) :
  Inv messages r -> mstep t r = Some r' -> Inv messages r'.
Proof.
  intros [Hm Hc] Hs. destruct t as [|k]; cbn in Hs.
  - unfold step_main in Hs.
    destruct (mpc r) as [| |i| |] eqn:Hpc.
    + injection Hs as <-. split; cbn [mpc wg units st]; [exact Hm|].
      exact Hc.
    + injection Hs as <-. destruct Hc as [Hu Hw]. split; cbn [mpc wg units st]; [exact Hm|].
      rewrite Hu, Hw. cbn. repeat split; lia.
    + destruct Hc as (Hl & Hi & Hw).
      destruct (nth_error messages i) as [mi|] eqn:Hn; injection Hs as <-.
      * assert (i < n) by (apply nth_error_Some; congruence).
        split; cbn [mpc wg units st].
        -- rewrite map_app, length_app, Hm, Hl. cbn.
           rewrite Nat.add_1_r. symmetry. now apply firstn_snoc.
        -- rewrite length_app, exits_snoc_call. cbn. repeat split; lia.
      * apply nth_error_None in Hn. split; cbn [mpc wg units st]; [exact Hm|].
        unfold numMessages in *. split; [lia | exact Hw].
    + destruct Hc as (Hl & Hw).
      destruct (wg r =? 0)%Z eqn:Hz; [|discriminate].
      injection Hs as <-. apply Z.eqb_eq in Hz.
      split; cbn [mpc wg units st]; [exact Hm|]. repeat split; lia.
    + discriminate.
  - unfold step_unit in Hs.
    destruct (nth_error (units r) k) as [[mk pc]|] eqn:Hk; [|discriminate].
    assert (Hfst : forall pc', map fst (set_pc k pc' (units r)) =
             firstn (List.length (set_pc k pc' (units r))) messages)
      by (intros; now rewrite set_pc_fst, set_pc_length).
    assert (Hsame : forall pc', exited (mk, pc) = exited (mk, pc') ->
             exits (set_pc k pc' (units r)) = exits (units r)).
    { intros pc' He. pose proof (set_pc_exits k pc' (units r) Hk) as E.
      rewrite He in E. lia. }
    assert (Hkeep : forall pc' (s' : State Ext),
             exits (set_pc k pc' (units r)) = exits (units r) ->
             Inv messages {| mpc := mpc r; wg := wg r;
                    units := set_pc k pc' (units r); st := s' |}).
    { intros pc' s' He. split; cbn [mpc wg units st]; [apply Hfst|].
      destruct (mpc r); rewrite ?set_pc_length, ?He; try exact Hc.
      all: destruct Hc as [Hu _]; rewrite Hu in Hk; destruct k; discriminate. }
    destruct pc as [|e| |].
    + destruct (handleMessage config svc mk h (st r)) as [[e|] s'];
        injection Hs as <-; apply Hkeep; now apply Hsame.
    + injection Hs as <-. apply Hkeep. now apply Hsame.
    + injection Hs as <-.
      pose proof (set_pc_exits k UExit (units r) Hk) as E. cbn in E.
      split; cbn [mpc wg units st]; [apply Hfst|].
      destruct (mpc r); rewrite ?set_pc_length.
      1,2: destruct Hc as [Hu _]; rewrite Hu in Hk; destruct k; discriminate.
      * destruct Hc as (Hl & Hi & Hw). repeat split; lia.
      * destruct Hc as (Hl & Hw). repeat split; lia.
      * destruct Hc as (Hl & Hw & He).
        pose proof (exits_le (set_pc k UExit (units r))) as L.
        rewrite set_pc_length in L. lia.
    + discriminate.
Qed.

Lemma Inv_exec sched (r : RunState Ext) : Inv messages r -> Inv messages (mexec sched r).
Proof.
  revert r; induction sched as [|t sched IH]; intros r Hr; cbn; [exact Hr|].
  destruct (mstep t r) as [r'|] eqn:Hs; apply IH; eauto using Inv_step.
Qed.

(** A goroutine that has not exited can always move: nothing cancels
    it. *)
Lemma unit_can_move k (r : RunState Ext) u :
  nth_error (units r) k = Some u -> exited u = false ->
  exists r', mstep (Unit k) r = Some r'.
Proof.
  intros Hk He. cbn. unfold step_unit. rewrite Hk.
  destruct u as [mk [|e| |]]; try discriminate; eauto.
  destruct (handleMessage config svc mk h (st r)); eauto.
Qed.

Lemma first_live_some (us : list (Message * UnitPc)) k :
  first_live us = Some k ->
  exists u, nth_error us k = Some u /\ exited u = false.
Proof.
  revert k; induction us as [|u us IH]; intros k Hk; cbn in Hk;
    [discriminate|].
  destruct (exited u) eqn:He.
  - destruct (first_live us) as [j|]; [|discriminate].
    injection Hk as <-. cbn. now apply IH.
  - injection Hk as <-. cbn. eauto.
Qed.

Lemma first_live_none (us : list (Message * UnitPc)) :
  first_live us = None <-> forallb exited us = true.
Proof.
  induction us as [|u us IH]; cbn; [tauto|].
  destruct (exited u); cbn.
  - rewrite <- IH. destruct (first_live us); cbn; split; congruence.
  - split; discriminate.
Qed.

(** [wg.Wait()] lets the main thread through exactly when every
    goroutine has exited. *)
Lemma wait_enabled (r : RunState Ext) :
  Inv messages r -> mpc r = MWait ->
  (exists r', mstep Main r = Some r') <-> forallb exited (units r) = true.
Proof.
  intros [_ Hc] Hpc. rewrite Hpc in Hc. destruct Hc as [Hl Hw].
  rewrite <- exits_all. cbn. unfold step_main. rewrite Hpc.
  destruct (wg r =? 0)%Z eqn:Hz.
  - apply Z.eqb_eq in Hz. split; [lia | eauto].
  - apply Z.eqb_neq in Hz. split; [intros [r' Hr']; discriminate | lia].
Qed.

(** Until [run] has returned the default scheduler finds a thread that
    can move. *)
Lemma pick_can_move (r : RunState Ext) :
  Inv messages r -> mpc r <> MReturned -> exists r', mstep (pick r) r = Some r'.
Proof.
  intros HI Hpc. unfold pick.
  destruct (first_live (units r)) as [k|] eqn:Hf.
  - destruct (first_live_some _ Hf) as (u & Hk & He).
    eapply unit_can_move; eauto.
  - apply first_live_none in Hf.
    destruct (mpc r) as [| |i| |] eqn:Hm; try congruence.
    + cbn. unfold step_main. rewrite Hm. eauto.
    + cbn. unfold step_main. rewrite Hm. eauto.
    + cbn. unfold step_main. rewrite Hm.
      destruct (nth_error messages i); eauto.
    + now apply wait_enabled.
Qed.

Lemma step_decreases t (r r' : RunState Ext) :
  Inv messages r -> mstep t r = Some r' -> steps_left messages r' < steps_left messages r.
Proof.
  intros [Hm Hc] Hs. unfold steps_left. destruct t as [|k]; cbn in Hs.
  - unfold step_main in Hs.
    destruct (mpc r) as [| |i| |] eqn:Hpc.
    + injection Hs as <-. cbn [mpc units main_left]. lia.
    + injection Hs as <-. cbn [mpc units main_left]. lia.
    + destruct (nth_error messages i) as [mi|] eqn:Hn; injection Hs as <-.
      * assert (i < n) by (apply nth_error_Some; congruence).
        cbn [mpc units main_left]. unfold units_left.
        rewrite map_app, list_sum_app. cbn [map list_sum fold_right unit_left snd]. lia.
      * cbn [mpc units main_left]. lia.
    + destruct (wg r =? 0)%Z; [|discriminate].
      injection Hs as <-. cbn [mpc units main_left]. lia.
    + discriminate.
  - unfold step_unit in Hs.
    destruct (nth_error (units r) k) as [[mk pc]|] eqn:Hk; [|discriminate].
    destruct pc as [|e| |].
    + destruct (handleMessage config svc mk h (st r)) as [[e|] s'];
        injection Hs as <-; cbn [mpc units];
        match goal with |- context [set_pc k ?pc' _] =>
          pose proof (set_pc_left k pc' (units r) Hk) as E end;
        cbn [unit_left snd] in E; lia.
    + injection Hs as <-. cbn [mpc units].
      pose proof (set_pc_left k UDone (units r) Hk) as E. cbn [unit_left snd] in E. lia.
    + injection Hs as <-. cbn [mpc units].
      pose proof (set_pc_left k UExit (units r) Hk) as E. cbn [unit_left snd] in E. lia.
    + discriminate.
Qed.

Lemma exec_left sched (r : RunState Ext) :
  Inv messages r -> steps_left messages (mexec sched r) <= steps_left messages r.
Proof.
  revert r; induction sched as [|t sched IH]; intros r Hr; cbn; [lia|].
  destruct (mstep t r) as [r'|] eqn:Hs; [|now apply IH].
  pose proof (step_decreases _ Hr Hs). pose proof (Inv_step _ Hr Hs) as Hr'.
  specialize (IH _ Hr'). lia.
Qed.

(** With enough fuel the default scheduler carries [run] to its
    return. *)
Lemma drain_returns fuel (r : RunState Ext) :
  Inv messages r -> steps_left messages r <= fuel ->
  Inv messages (mdrain fuel r) /\ mpc (mdrain fuel r) = MReturned.
Proof.
  revert r; induction fuel as [|fuel IH]; intros r Hr Hf.
  - cbn. split; [exact Hr|].
    unfold steps_left in Hf.
    destruct (mpc r); cbn [main_left] in Hf; try lia.
    reflexivity.
  - cbn [drain].
    destruct (mstep (pick r) r) as [r'|] eqn:Hs.
    + apply IH; [eapply Inv_step; eauto|].
      pose proof (step_decreases _ Hr Hs). lia.
    + split; [exact Hr|].
      destruct (mpc r) eqn:Hm; try reflexivity;
        destruct (pick_can_move Hr) as [r' Hr']; congruence.
Qed.

Lemma Inv_returned (r : RunState Ext) :
  Inv messages r -> mpc r = MReturned ->
  map fst (units r) = messages /\ forallb exited (units r) = true /\
  wg r = 0%Z.
Proof.
  intros [Hm Hc] Hpc. rewrite Hpc in Hc. destruct Hc as (Hl & Hw & He).
  repeat split.
  - rewrite Hm, Hl. apply firstn_all.
  - apply exits_all. lia.
  - exact Hw.
Qed.

(** *** What [run] writes to the trace *)

Lemma handleMessage_delete_trace (m : Message) (s : State Ext) :
  exists d,
    trace (snd (handleMessage_delete config svc m s)) = trace s ++ d /\
    forallb unit_event d = true.
Proof.
  destruct (handleMessage_delete_spec config svc m s) as (_ & _ & Ht).
  eexists. split; [exact Ht|].
  destruct (fst (DeleteMessage svc _ _)); reflexivity.
Qed.

Lemma handleMessage_trace (m : Message) (s : State Ext) :
  exists d,
    trace (snd (handleMessage config svc m h s))
      = trace s ++ EvHandle m :: d /\
    forallb unit_event d = true.
Proof.
  rewrite handleMessage_unfold. cbv zeta.
  destruct (fst (h m (mem s))) as [[e|e|t i|t]|];
    try (exists []; split; reflexivity).
  - match goal with |- context [handleMessage_delete _ _ _ ?s1] =>
      destruct (handleMessage_delete_trace m s1) as (d & Ht & Hd) end.
    exists (EvLog (Log (load config (snd (h m (mem s))))) SevError
              (Error (InvalidEventError_val e)) :: d).
    split; [|exact Hd].
    rewrite Ht. cbn [trace mem]. rewrite <- !app_assoc. reflexivity.
  - match goal with |- context [handleMessage_delete _ _ _ ?s1] =>
      destruct (handleMessage_delete_trace m s1) as (d & Ht & Hd) end.
    exists d. split; [|exact Hd].
    rewrite Ht. cbn [trace]. rewrite <- !app_assoc. reflexivity.
Qed.

Lemma unit_event_not_handle (d : list Event) :
  forallb unit_event d = true -> filter is_handle d = [].
Proof.
  induction d as [|e d IH]; cbn; [reflexivity|].
  intros H; apply andb_prop in H as [He Hd].
  destruct e as [? [] ?| | | |]; cbn in *; try discriminate; auto.
Qed.

Lemma unit_event_run_event (d : list Event) :
  forallb unit_event d = true -> forallb run_event d = true.
Proof.
  induction d as [|e d IH]; cbn; [reflexivity|].
  intros H; apply andb_prop in H as [He Hd].
  unfold run_event at 1. rewrite He, IH, orb_true_r; auto.
Qed.

Lemma set_pc_started_same k pc (us : list (Message * UnitPc)) mk pc0 :
  nth_error us k = Some (mk, pc0) ->
  started (mk, pc0) = started (mk, pc) ->
  map fst (filter started (set_pc k pc us)) = map fst (filter started us).
Proof.
  revert k; induction us as [|[mk' p] us IH]; intros [|k] Hk He;
    cbn in Hk; try discriminate.
  - injection Hk as -> ->. cbn [set_pc filter]. rewrite He.
    destruct (started (mk, pc)); reflexivity.
  - cbn [set_pc filter]. destruct (started (mk', p)); cbn [map];
      now rewrite (IH _ Hk He).
Qed.

Lemma set_pc_started_new k pc (us : list (Message * UnitPc)) mk :
  nth_error us k = Some (mk, UCall) ->
  started (mk, pc) = true ->
  Permutation (map fst (filter started us) ++ [mk])
    (map fst (filter started (set_pc k pc us))).
Proof.
  revert k; induction us as [|[mk' p] us IH]; intros [|k] Hk He;
    cbn in Hk; try discriminate.
  - injection Hk as -> ->. cbn [set_pc filter]. rewrite He.
    cbn. rewrite Permutation_app_comm. reflexivity.
  - cbn [set_pc filter]. destruct (started (mk', p)); cbn [map app].
    + constructor. now apply IH.
    + now apply IH.
Qed.

Lemma TraceInv_step (s0 : State Ext) t (r r' : RunState Ext) :
  Inv messages r -> TraceInv config messages s0 r -> mstep t r = Some r' -> TraceInv config messages s0 r'.
Proof.
  intros [_ Hc] HT Hs. unfold TraceInv in *. destruct t as [|k]; cbn in Hs.
  - unfold step_main in Hs.
    destruct (mpc r) as [| |i| |] eqn:Hpc.
    + injection Hs as <-. cbn [mpc st units]. destruct Hc as [Hu _].
      rewrite HT, Hu. exists []. repeat split. constructor.
    + injection Hs as <-. exact HT.
    + destruct HT as (d & Ht & Hd & Hp).
      destruct (nth_error messages i) as [mi|]; injection Hs as <-;
        cbn [mpc st units]; exists d; repeat split; auto.
      rewrite filter_app. cbn. now rewrite app_nil_r.
    + destruct (wg r =? 0)%Z; [|discriminate].
      injection Hs as <-. exact HT.
    + discriminate.
  - unfold step_unit in Hs.
    destruct (nth_error (units r) k) as [[mk pc]|] eqn:Hk; [|discriminate].
    assert (Hnot : mpc r <> MInfo).
    { intros E. rewrite E in Hc. destruct Hc as [Hu _].
      rewrite Hu in Hk. destruct k; discriminate. }
    assert (HT' : exists d,
               trace (st r) = trace s0 ++ info_entry config messages s0 :: d /\
               forallb run_event d = true /\
               Permutation (filter is_handle d)
                 (map EvHandle (map fst (filter started (units r)))))
      by (destruct (mpc r); try exact HT; congruence).
    clear HT. destruct HT' as (d & Ht & Hd & Hp).
    assert (Hgoal : forall s' us',
      (exists d', trace s' = trace s0 ++ info_entry config messages s0 :: d' /\
         forallb run_event d' = true /\
         Permutation (filter is_handle d')
           (map EvHandle (map fst (filter started us')))) ->
      match mpc r with
      | MInfo => s' = s0
      | _ => exists d', trace s' = trace s0 ++ info_entry config messages s0 :: d' /\
         forallb run_event d' = true /\
         Permutation (filter is_handle d')
           (map EvHandle (map fst (filter started us')))
      end) by (intros; destruct (mpc r); auto; congruence).
    destruct pc as [|e| |].
    + destruct (handleMessage_trace mk (st r)) as (d' & Ht' & Hd').
      destruct (handleMessage config svc mk h (st r)) as [err s'].
      cbn [snd] in Ht'. injection Hs as <-. cbn [mpc st units].
      apply Hgoal. exists (d ++ EvHandle mk :: d'). repeat split.
      * rewrite Ht', Ht, <- app_assoc. reflexivity.
      * rewrite forallb_app, Hd. cbn.
        now rewrite unit_event_run_event.
      * rewrite filter_app. cbn [filter is_handle].
        rewrite (unit_event_not_handle _ Hd').
        etransitivity; [apply Permutation_app_tail; exact Hp|].
        change [EvHandle mk] with (map EvHandle [mk]).
        rewrite <- map_app. apply Permutation_map.
        apply set_pc_started_new; [exact Hk|]. now destruct err.
    + injection Hs as <-. cbn [mpc st units]. apply Hgoal.
      exists (d ++ [EvLog (Log (load config (mem (st r)))) SevError (Error e)]).
      repeat split.
      * cbn. rewrite Ht, <- app_assoc. reflexivity.
      * rewrite forallb_app, Hd. reflexivity.
      * rewrite filter_app. cbn. rewrite app_nil_r.
        now rewrite (set_pc_started_same k UDone (units r) Hk).
    + injection Hs as <-. cbn [mpc st units]. apply Hgoal.
      exists d. repeat split; auto.
      now rewrite (set_pc_started_same k UExit (units r) Hk).
    + discriminate.
Qed.

Lemma TraceInv_exec (s0 : State Ext) sched (r : RunState Ext) :
  Inv messages r -> TraceInv config messages s0 r -> TraceInv config messages s0 (mexec sched r).
Proof.
  revert r; induction sched as [|t sched IH]; intros r Hr HT; cbn;
    [exact HT|].
  destruct (mstep t r) as [r'|] eqn:Hs; apply IH;
    eauto using Inv_step, TraceInv_step.
Qed.

Lemma TraceInv_drain (s0 : State Ext) fuel (r : RunState Ext) :
  Inv messages r -> TraceInv config messages s0 r -> TraceInv config messages s0 (mdrain fuel r).
Proof.
  revert r; induction fuel as [|fuel IH]; intros r Hr HT; cbn;
    [exact HT|].
  destruct (mstep (pick r) r) as [r'|] eqn:Hs;
    [|exact HT].
  apply IH; eauto using Inv_step, TraceInv_step.
Qed.

Lemma exited_started (us : list (Message * UnitPc)) :
  forallb exited us = true -> filter started us = us.
Proof.
  induction us as [|[mk pc] us IH]; cbn; [reflexivity|].
  intros H; apply andb_prop in H as [He Hd].
  destruct pc; try discriminate. cbn. now rewrite IH.
Qed.

Lemma run_final_spec (sched : list Tid) (s : State Ext) :
  let f := run_final config svc h messages sched s in
  Inv messages f /\ mpc f = MReturned /\ TraceInv config messages s f.
Proof.
  cbv zeta. unfold run_final.
  pose proof (Inv_init s) as H0.
  pose proof (Inv_exec sched H0) as H1.
  assert (Hf : steps_left messages (mexec sched (run_init s)) <= run_bound messages).
  { pose proof (exec_left sched H0) as L. cbn in L.
    unfold run_bound. unfold steps_left in *. cbn [main_left] in L.
    unfold numMessages in *. lia. }
  destruct (drain_returns H1 Hf) as [H2 H3].
  split; [exact H2|]. split; [exact H3|].
  apply TraceInv_drain; [exact H1|].
  apply TraceInv_exec; [exact H0 | reflexivity].
Qed.

(** C6.  Under every schedule of the threads, so in every order in which
    the goroutines start, work and finish: the goroutines [run] has
    started are those of the first messages of the batch, one each, in
    order; [wg.Wait()] lets [run] through exactly when all of them have
    exited; a goroutine that has not exited can always take its next
    step; and once [run] has returned there is one exited goroutine for
    each message of the batch.  Moreover [run] does return: left to the
    default scheduler after any schedule, it ends with [n] goroutines
    started and [n] joined, and its trace holds one handler call for each
    message.  The batch may have any size, the sizes 0 to 10 included. *)
Theorem C6_run_joins_every_unit (s : State Ext) (sched : list Tid) :
  let r := mexec sched (run_init s) in
  let f := run_final config svc h messages sched s in
  map fst (units r) = firstn (List.length (units r)) messages /\
  (mpc r = MWait ->
   ((exists r', mstep Main r = Some r') <->
    forallb exited (units r) = true)) /\
  (forall k u, nth_error (units r) k = Some u -> exited u = false ->
     exists r', mstep (Unit k) r = Some r') /\
  (mpc r = MReturned ->
   map fst (units r) = messages /\ forallb exited (units r) = true) /\
  mpc f = MReturned /\
  map fst (units f) = messages /\
  List.length (units f) = n /\
  exits (units f) = List.length (units f) /\
  exists d,
    trace (st f) = trace s ++ info_entry config messages s :: d /\
    Permutation (filter is_handle d) (map EvHandle messages).
Proof.
  cbv zeta.
  pose proof (Inv_exec sched (Inv_init s)) as Hr.
  destruct (run_final_spec sched s) as (Hf & Hm & Ht).
  destruct (Inv_returned Hf Hm) as (Hu & He & _).
  repeat split.
  - apply Hr.
  - now apply wait_enabled.
  - now apply wait_enabled.
  - intros k u. apply unit_can_move.
  - now apply Inv_returned.
  - now apply Inv_returned.
  - exact Hm.
  - exact Hu.
  - rewrite <- Hu at 2. unfold numMessages. now rewrite length_map.
  - now apply exits_all.
  - unfold TraceInv in Ht. rewrite Hm in Ht.
    destruct Ht as (d & Hd & _ & Hp). exists d. split; [exact Hd|].
    rewrite (exited_started _ He), Hu in Hp. exact Hp.
Qed.

End Dispatcher.

(** * Properties of the poller *)

Section Poller.

Variable Ext : Type.
Variables (svc : SQS Ext) (h : Handler Ext).

Lemma Start_body_unfold sched (config : ConfigPtr) (s : State Ext) :
  Start_body svc h sched config s =
    (Some (effective config),
     match snd (received svc config s) with
     | Some e =>
         {| mem := mem (after_receive svc config s);
            trace := trace (after_receive svc config s) ++ [EvStdLog (Error e)] |}
     | None =>
         if dispatches svc config s
         then st (run_final (effective config) svc h
                    (Messages (fst (received svc config s))) sched
                    (after_receive svc config s))
         else after_receive svc config s
     end).
Proof.
  unfold Start_body, dispatches, received, after_receive, request,
    polling_entry, effective, Log_call, run, bind, deref, extcall, emit, ret.
  cbn [mem trace fst snd].
  destruct (ReceiveMessage svc _ (mem s)) as [[resp [e|]] m1];
    cbn [mem trace fst snd]; rewrite <- ?app_assoc; cbn [app].
  - reflexivity.
  - destruct (0 <? List.length (Messages resp))%nat; cbn [mem trace fst snd];
      rewrite <- ?app_assoc; reflexivity.
Qed.

(** Events an iteration adds after its receive call: none of them is a
    receive call. *)
Lemma Start_body_trace sched (config : ConfigPtr) (s : State Ext) :
  exists d,
    trace (snd (Start_body svc h sched config s))
      = trace (after_receive svc config s) ++ d /\
    filter is_receive d = [].
Proof.
  rewrite Start_body_unfold. cbn [snd].
  destruct (snd (received svc config s)) as [e|].
  - eexists. split; reflexivity.
  - destruct (dispatches svc config s).
    + destruct (run_final_spec (effective config) svc h
                  (Messages (fst (received svc config s))) sched
                  (after_receive svc config s)) as (_ & Hm & Ht).
      unfold TraceInv in Ht. rewrite Hm in Ht.
      destruct Ht as (d & Hd & Hr & _).
      eexists. split; [exact Hd|]. cbn.
      clear Hd. induction d as [|x d IH]; [reflexivity|].
      cbn in Hr. apply andb_prop in Hr as [Hx Hr].
      destruct x as [? [] ?| | | |]; cbn in *; try discriminate; auto.
    + exists []. now rewrite app_nil_r.
Qed.

Lemma Start_trace scheds (config : ConfigPtr) (s : State Ext) :
  exists d, trace (snd (Start svc h scheds config s)) = trace s ++ d.
Proof.
  revert config s; induction scheds as [|sched rest IH]; intros config s.
  - exists []. cbn. now rewrite app_nil_r.
  - cbn [Start]. unfold bind.
    destruct (Start_body_trace sched config s) as (d1 & H1 & _).
    destruct (Start_body svc h sched config s) as [c' s'].
    cbn [snd] in H1. destruct (IH c' s') as (d2 & H2).
    rewrite H2, H1. unfold after_receive. cbn [trace].
    rewrite <- !app_assoc. eexists. reflexivity.
Qed.

Lemma Start_receives scheds (config : ConfigPtr) (s : State Ext) :
  count is_receive (trace (snd (Start svc h scheds config s)))
  = count is_receive (trace s) + List.length scheds.
Proof.
  revert config s; induction scheds as [|sched rest IH]; intros config s.
  - cbn. lia.
  - cbn [Start]. unfold bind.
    destruct (Start_body_trace sched config s) as (d1 & H1 & H0).
    destruct (Start_body svc h sched config s) as [c' s'].
    cbn [snd] in H1. rewrite IH, H1. unfold after_receive. cbn [trace].
    rewrite !count_app. unfold count at 3. rewrite H0. cbn. lia.
Qed.

Lemma Start_body_config sched (config : ConfigPtr) (s : State Ext) :
  fst (Start_body svc h sched config s) = Some (effective config).
Proof. now rewrite Start_body_unfold. Qed.

Lemma Start_config scheds (r : ConfigRef) (s : State Ext) :
  fst (Start svc h scheds (Some r) s) = Some r.
Proof.
  revert s; induction scheds as [|sched rest IH]; intros s; [reflexivity|].
  cbn [Start]. unfold bind.
  pose proof (Start_body_config sched (Some r) s) as Hc.
  destruct (Start_body svc h sched (Some r) s) as [c' s'].
  cbn in Hc. subst c'. apply IH.
Qed.

Lemma Start_cons sched rest (config : ConfigPtr) (s : State Ext) :
  Start svc h (sched :: rest) config s =
  Start svc h rest (fst (Start_body svc h sched config s))
    (snd (Start_body svc h sched config s)).
Proof.
  cbn [Start]. unfold bind.
  now destruct (Start_body svc h sched config s).
Qed.

Lemma run_event_filters (d : list Event) :
  forallb run_event d = true ->
  filter is_receive d = [] /\ filter is_info d = [].
Proof.
  induction d as [|x d IH]; cbn; [auto|].
  intros H; apply andb_prop in H as [Hx Hd]. destruct (IH Hd) as [H1 H2].
  destruct x as [? [] ?| | | |]; cbn in *; try discriminate; auto.
Qed.

(** C5.  An iteration whose receive call fails writes the polling entry,
    issues the receive call and writes the error once, on the standard
    logger; nothing else happens in it: no info entry, no handler call,
    no delete call, so [run] is not invoked.  The loop goes on with the
    next iteration, whose first actions are the polling entry and the
    next receive call.  However many iterations one asks for, that many
    receive calls are issued: no receive error ends the loop. *)
Theorem C5_receive_error_logged_once_and_retried
  sched sched' rest (config : ConfigPtr) (s : State Ext) (e : error) :
  snd (received svc config s) = Some e ->
  let out := Start_body svc h sched config s in
  trace (snd out) =
    trace s ++ [polling_entry config s; EvReceive (request config s);
                EvStdLog (Error e)] /\
  count is_stdlog (trace (snd out)) = S (count is_stdlog (trace s)) /\
  count is_info (trace (snd out)) = count is_info (trace s) /\
  count is_handle (trace (snd out)) = count is_handle (trace s) /\
  count is_delete (trace (snd out)) = count is_delete (trace s) /\
  Start svc h (sched :: rest) config s
    = Start svc h rest (Some (effective config)) (snd out) /\
  (exists d,
     trace (snd (Start_body svc h sched' (fst out) (snd out))) =
       trace (snd out)
         ++ [polling_entry (fst out) (snd out);
             EvReceive (request (fst out) (snd out))] ++ d) /\
  forall scheds,
    count is_receive (trace (snd (Start svc h scheds config s)))
    = count is_receive (trace s) + List.length scheds.
Proof.
  intros He. cbv zeta.
  assert (Ht : trace (snd (Start_body svc h sched config s)) =
    trace s ++ [polling_entry config s; EvReceive (request config s);
                EvStdLog (Error e)]).
  { rewrite Start_body_unfold, He. cbn. now rewrite <- app_assoc. }
  repeat split.
  - exact Ht.
  - rewrite Ht, !count_app. cbn. lia.
  - rewrite Ht, !count_app. cbn. lia.
  - rewrite Ht, !count_app. cbn. lia.
  - rewrite Ht, !count_app. cbn. lia.
  - rewrite Start_cons, Start_body_config. reflexivity.
  - destruct (Start_body_trace sched' (fst (Start_body svc h sched config s))
                (snd (Start_body svc h sched config s))) as (d & Hd & _).
    exists d. rewrite Hd. unfold after_receive. cbn [trace].
    rewrite <- !app_assoc. reflexivity.
  - intros scheds. apply Start_receives.
Qed.

(** C7.  An iteration hands the batch to [run] exactly when the receive
    call succeeded with one message or more: only then does it write an
    info entry, and only then are there handler calls, one for each
    message.  After a receive call that succeeded with no message the
    iteration is over at once.  After one that brought messages, the info
    entry with their number comes first and the iteration ends in the
    state in which [run] has returned, every goroutine joined; the events
    of the next iteration, its receive call among them, come after all
    of that. *)
Theorem C7_dispatch_iff_messages_received
  sched rest (config : ConfigPtr) (s : State Ext) :
  let out := Start_body svc h sched config s in
  let s2 := after_receive svc config s in
  let msgs := Messages (fst (received svc config s)) in
  let c := effective config in
  (dispatches svc config s = true <->
   snd (received svc config s) = None /\ msgs <> []) /\
  count is_info (trace (snd out)) =
    count is_info (trace s) + (if dispatches svc config s then 1 else 0) /\
  count is_handle (trace (snd out)) =
    count is_handle (trace s)
      + (if dispatches svc config s then List.length msgs else 0) /\
  (snd (received svc config s) = None -> msgs = [] -> snd out = s2) /\
  (snd (received svc config s) = None -> msgs <> [] ->
   let f := run_final c svc h msgs sched s2 in
   snd out = st f /\ mpc f = MReturned /\
   map fst (units f) = msgs /\ forallb exited (units f) = true /\
   exists d,
     trace (snd out) =
       trace s
         ++ [polling_entry config s; EvReceive (request config s);
             EvLog (Log (load c (mem s2))) SevInfo
               ("worker: Received " ++ fmt_d (Z.of_nat (List.length msgs))
                  ++ " messages")%string]
         ++ d /\
     filter is_receive d = [] /\
     Permutation (filter is_handle d) (map EvHandle msgs)) /\
  Start svc h (sched :: rest) config s
    = Start svc h rest (Some c) (snd out) /\
  exists d,
    trace (snd (Start svc h (sched :: rest) config s)) = trace (snd out) ++ d.
Proof.
  cbv zeta.
  set (msgs := Messages (fst (received svc config s))).
  assert (Hrun : dispatches svc config s = true ->
    let f := run_final (effective config) svc h msgs sched
               (after_receive svc config s) in
    snd (Start_body svc h sched config s) = st f /\ mpc f = MReturned /\
    map fst (units f) = msgs /\ forallb exited (units f) = true /\
    exists d,
      trace (st f) =
        trace s
          ++ [polling_entry config s; EvReceive (request config s);
              EvLog (Log (load (effective config)
                            (mem (after_receive svc config s)))) SevInfo
                ("worker: Received " ++ fmt_d (Z.of_nat (List.length msgs))
                   ++ " messages")%string]
          ++ d /\
      forallb run_event d = true /\
      Permutation (filter is_handle d) (map EvHandle msgs)).
  { intros Hd. cbv zeta. rewrite Start_body_unfold. cbn [snd].
    unfold dispatches in Hd |- *. fold msgs in Hd |- *.
    destruct (snd (received svc config s)); [discriminate|].
    rewrite Hd.
    destruct (run_final_spec (effective config) svc h msgs sched
                (after_receive svc config s)) as (Hf & Hm & Ht).
    destruct (Inv_returned Hf Hm) as (Hu & Hx & _).
    repeat split; auto.
    unfold TraceInv in Ht. rewrite Hm in Ht.
    destruct Ht as (d & Hd' & Hr & Hp). exists d. repeat split; auto.
    - rewrite Hd'. unfold after_receive at 1. cbn [trace].
      rewrite <- !app_assoc. reflexivity.
    - rewrite (exited_started _ Hx), Hu in Hp. exact Hp. }
  assert (Hiff : dispatches svc config s = true <->
                 snd (received svc config s) = None /\ msgs <> []).
  { unfold dispatches. fold msgs.
    destruct (snd (received svc config s)).
    - split; [discriminate | intros [? _]; discriminate].
    - rewrite Nat.ltb_lt. destruct msgs; cbn; split.
      + lia.
      + intros [_ H]; congruence.
      + intros _. split; [reflexivity | discriminate].
      + lia. }
  split; [exact Hiff|].
  assert (Hno : dispatches svc config s = false ->
    exists d, trace (snd (Start_body svc h sched config s)) =
                trace (after_receive svc config s) ++ d /\
              filter is_info d = [] /\ filter is_handle d = []).
  { intros Hd. rewrite Start_body_unfold. cbn [snd].
    unfold dispatches in Hd |- *.
    destruct (snd (received svc config s)).
    - eexists. repeat split.
    - rewrite Hd. exists []. now rewrite app_nil_r. }
  repeat split.
  - destruct (dispatches svc config s) eqn:Hd.
    + destruct (Hrun eq_refl) as (Hs & _ & _ & _ & d & Ht & Hr & _).
      rewrite Hs, Ht, !count_app. unfold count at 3.
      destruct (run_event_filters _ Hr) as [_ ->]. cbn. lia.
    + destruct (Hno eq_refl) as (d & Ht & Hi & _).
      rewrite Ht. unfold after_receive. cbn [trace].
      rewrite !count_app. unfold count at 3. rewrite Hi. cbn. lia.
  - destruct (dispatches svc config s) eqn:Hd.
    + destruct (Hrun eq_refl) as (Hs & _ & _ & _ & d & Ht & _ & Hp).
      rewrite Hs, Ht, !count_app. unfold count at 3.
      rewrite (Permutation_length Hp), length_map. cbn. lia.
    + destruct (Hno eq_refl) as (d & Ht & _ & Hi).
      rewrite Ht. unfold after_receive. cbn [trace].
      rewrite !count_app. unfold count at 3. rewrite Hi. cbn. lia.
  - intros He Hm. rewrite Start_body_unfold. cbn [snd].
    unfold dispatches. fold msgs. rewrite He, Hm. reflexivity.
  - apply Hrun. apply Hiff. now split.
  - apply Hrun. apply Hiff. now split.
  - apply Hrun. apply Hiff. now split.
  - apply Hrun. apply Hiff. now split.
  - assert (Hd : dispatches svc config s = true) by (apply Hiff; now split).
    destruct (Hrun Hd) as (Hs & _ & _ & _ & d & Ht & Hr & Hp).
    exists d. rewrite Hs. repeat split; auto.
    now apply run_event_filters.
  - rewrite Start_cons, Start_body_config. reflexivity.
  - rewrite Start_cons. apply Start_trace.
Qed.

(** C8, as the code has it.  Started with a nil [config], the first
    iteration rebinds the parameter [config] of [Start] to the address of
    the package variable [DefaultConfig]; its polling entry and its
    receive request are built from that variable, as is every later
    request, each from the value the variable has when the request is
    built.  From then on the loop behaves as if [&DefaultConfig] had been
    passed.  The pointer the caller holds is not touched: it is still
    nil after any number of iterations. *)
Theorem C8_nil_config_rebinds_parameter_only
  sched rest (s : State Ext) :
  let out := Start_body svc h sched None s in
  fst out = Some RefDefault /\
  (exists d,
     trace (snd out) =
       trace s
         ++ [EvLog (Log (var_DefaultConfig (mem s))) SevDebug
               "worker: Start Polling";
             EvReceive (receive_request (var_DefaultConfig (mem s)))]
         ++ d) /\
  Start_body svc h sched None s = Start_body svc h sched (Some RefDefault) s /\
  Start svc h (sched :: rest) None s
    = Start svc h rest (Some RefDefault) (snd out) /\
  (forall s' : State Ext,
     request (fst out) s' = receive_request (var_DefaultConfig (mem s'))) /\
  fst (call_Start svc h (sched :: rest) None s) = (None, Some RefDefault).
Proof.
  cbv zeta.
  pose proof (Start_body_config sched None s) as Hc. cbn [effective] in Hc.
  repeat split.
  - exact Hc.
  - destruct (Start_body_trace sched None s) as (d & Hd & _).
    exists d. rewrite Hd. unfold after_receive. cbn [trace].
    rewrite <- app_assoc. reflexivity.
  - rewrite Start_cons, Hc. reflexivity.
  - intros s'. rewrite Hc. reflexivity.
  - unfold call_Start, bind, ret.
    pose proof (Start_config rest RefDefault
                  (snd (Start_body svc h sched None s))) as H1.
    rewrite Start_cons, Hc.
    destruct (Start svc h rest (Some RefDefault)
                (snd (Start_body svc h sched None s))) as [c' s'].
    cbn in *. now subst c'.
Qed.

End Poller.

(** *** The dispatcher and the poller on the demo world *)

(** The default configuration that a nil [config] falls back to is the
    shared variable: what a handler writes there in one iteration is the
    queue the next iteration polls. *)
Example nil_config_shares_DefaultConfig :
  queue_urls
    (trace (snd (Start (client [msg_a] None None) (retarget "other")
                   [[]; []] None Demo.st0)))
  = [Some ""; Some "other"].
Proof. vm_compute. reflexivity. Qed.

(** C8, as the claim has it: after an iteration started with a nil
    pointer the caller's pointer would be the address of [DefaultConfig].
    It is not. *)
Lemma C8_caller_pointer_stays_nil :
  ~ (fst (fst (call_Start (client [] None None) (always None) [[]] None
                 Demo.st0)) = Some RefDefault).
Proof. vm_compute. discriminate. Qed.

Lemma C5_witness :
  snd (received (client [msg_a] (Some denied) None) None Demo.st0)
    = Some denied /\
  trace (snd (Start_body (client [msg_a] (Some denied) None) (always None)
                [] None Demo.st0))
  = [EvLog DefaultLogger SevDebug "worker: Start Polling";
     EvReceive (receive_request DefaultConfig);
     EvStdLog "AccessDenied"].
Proof.
  split; [reflexivity|].
  pose proof (@C5_receive_error_logged_once_and_retried nat
                (client [msg_a] (Some denied) None) (always None)
                [] [] [] None Demo.st0 denied eq_refl) as P.
  cbv zeta in P. destruct P as (P0 & _).
  exact P0.
Defined.

(** Three messages, the goroutines finishing in the order 2, 0, 1. *)
Example run_out_of_order :
  let f := run_final (RefHeap 0) (client [] None None) (always None)
             [msg_a; msg_b; msg_a]
             [Main; Main; Main; Main; Main;
              Unit 2; Unit 2; Unit 0; Unit 1; Unit 0; Main; Unit 1; Main]
             Demo.st0 in
  mpc f = MReturned /\ wg f = 0%Z /\
  count is_delete (trace (st f)) = 3 /\
  count is_handle (trace (st f)) = 3.
Proof. vm_compute. repeat split. Qed.

(** Two messages, the second goroutine finishing first. *)
Lemma C6_witness :
  let sched := [Main; Main; Main; Main; Main;
                Unit 1; Unit 0; Unit 1; Unit 0; Main] in
  let r := exec (RefHeap 0) (client [] None None) (always None)
             [msg_a; msg_b] sched (run_init Demo.st0) in
  mpc r = MReturned /\
  map fst (units r) = [msg_a; msg_b] /\
  forallb exited (units r) = true.
Proof.
  cbv zeta. split; [vm_compute; reflexivity|].
  pose proof (@C6_run_joins_every_unit nat (RefHeap 0)
                (client [] None None) (always None) [msg_a; msg_b]
                Demo.st0
                [Main; Main; Main; Main; Main;
                 Unit 1; Unit 0; Unit 1; Unit 0; Main]) as P.
  cbv zeta in P. destruct P as (_ & _ & _ & P & _).
  apply P. vm_compute. reflexivity.
Defined.

Lemma C7_witness :
  let svc := client [msg_a; msg_b] None None in
  let out := Start_body svc (always None) [] (Some (RefHeap 0)) Demo.st0 in
  snd (received svc (Some (RefHeap 0)) Demo.st0) = None /\
  Messages (fst (received svc (Some (RefHeap 0)) Demo.st0)) <> [] /\
  count is_info (trace (snd out)) = 1 /\
  count is_handle (trace (snd out)) = 2.
Proof.
  cbv zeta. split; [reflexivity|]. split; [discriminate|].
  pose proof (@C7_dispatch_iff_messages_received nat
                (client [msg_a; msg_b] None None) (always None) [] []
                (Some (RefHeap 0)) Demo.st0) as P.
  cbv zeta in P. destruct P as (_ & P1 & P2 & _).
  split; [exact P1 | exact P2].
Defined.

(** * Further properties of the message processor *)

Section FurtherProcessor.

Variable Ext : Type.
Variables (config : ConfigRef) (svc : SQS Ext) (m : Message) (h : Handler Ext).

Lemma appended_app (s s' : State Ext) (d : list Event) :
  trace s' = trace s ++ d -> appended s s' = d.
Proof.
  intros H. unfold appended. rewrite H, skipn_app, skipn_all, Nat.sub_diag.
  reflexivity.
Qed.

(** [handleMessage] in one equation: result, memory and trace, by the
    answers of the handler and of the delete call. *)
Lemma handleMessage_chunk (s : State Ext) :
  let herr := fst (h m (mem s)) in
  let m1 := snd (h m (mem s)) in
  let derr := fst (DeleteMessage svc (delete_request config m m1) m1) in
  let m2 := snd (DeleteMessage svc (delete_request config m m1) m1) in
  let del :=
    EvDelete (delete_request config m m1)
    :: match derr with
       | None => [deleted_entry config m m2]
       | Some _ => []
       end in
  let out := handleMessage config svc m h s in
  fst out = hm_result herr derr /\
  mem (snd out) = (if acknowledges herr then m2 else m1) /\
  trace (snd out) =
    trace s
      ++ EvHandle m
      :: match herr with
         | Some (InvalidEventError_val e) =>
             EvLog (Log (load config m1)) SevError (InvalidEventError_Error e)
             :: del
         | Some _ => []
         | None => del
         end.
Proof.
  cbv zeta. rewrite handleMessage_unfold. cbv zeta.
  destruct (fst (h m (mem s))) as [[e|e|t i|t]|] eqn:Hh; cbn [hm_result acknowledges];
    try (repeat split; reflexivity).
  - match goal with |- context [handleMessage_delete _ _ _ ?s1] =>
      destruct (handleMessage_delete_spec config svc m s1) as (Hr & Hm & Ht)
    end.
    cbn [mem trace] in *. rewrite Hr, Hm, Ht.
    repeat split. rewrite <- !app_assoc. reflexivity.
  - match goal with |- context [handleMessage_delete _ _ _ ?s1] =>
      destruct (handleMessage_delete_spec config svc m s1) as (Hr & Hm & Ht)
    end.
    cbn [mem trace] in *. rewrite Hr, Hm, Ht.
    repeat split. rewrite <- !app_assoc. reflexivity.
Qed.

(** X1.  [handleMessage] returns nil exactly when it took the deletion
    path and the delete call succeeded.  So a nil result means that the
    message was deleted: the delete call and the debug entry are then the
    last two events, and in every other case the caller gets an error. *)
Theorem X1_nil_result_iff_deleted (s : State Ext) :
  let herr := fst (h m (mem s)) in
  let m1 := snd (h m (mem s)) in
  let req := delete_request config m m1 in
  let derr := fst (DeleteMessage svc req m1) in
  let out := handleMessage config svc m h s in
  (fst out = None <-> acknowledges herr = true /\ derr = None) /\
  count is_delete (appended s (snd out))
    = (if acknowledges herr then 1 else 0) /\
  (fst out = None ->
   exists pre,
     appended s (snd out)
       = pre ++ [EvDelete req; deleted_entry config m (mem (snd out))]).
Proof.
  cbv zeta. destruct (handleMessage_chunk s) as (Hr & Hm & Ht).
  cbv zeta in Hr, Hm, Ht. apply appended_app in Ht. rewrite Hr, Hm, Ht.
  destruct (fst (h m (mem s))) as [[e|e|t i|t]|];
    cbn [hm_result acknowledges];
    destruct (fst (DeleteMessage svc _ _)) as [de|];
    (split; [split; [try discriminate; intros _; split; reflexivity
                    | intros [? ?]; try discriminate; reflexivity]|]);
    (split; [reflexivity|]); intros Hn; try discriminate.
  - eexists [_; _]. reflexivity.
  - eexists [_]. reflexivity.
Qed.

(** X2.  Whatever the handler and the queue answer, [handleMessage] calls
    the handler once, before anything else; after that it issues at most
    one delete call, for the receipt handle of this message and no other,
    and it never receives, never writes an info entry and never writes to
    the standard logger.  The memory it leaves is the one the last
    external call left: it writes nothing itself. *)
Theorem X2_one_handler_call_at_most_one_delete (s : State Ext) :
  let herr := fst (h m (mem s)) in
  let m1 := snd (h m (mem s)) in
  let m2 := snd (DeleteMessage svc (delete_request config m m1) m1) in
  let out := handleMessage config svc m h s in
  mem (snd out) = (if acknowledges herr then m2 else m1) /\
  exists d,
    appended s (snd out) = EvHandle m :: d /\
    filter is_handle d = [] /\
    filter is_receive d = [] /\
    filter is_info d = [] /\
    filter is_stdlog d = [] /\
    count is_delete d <= 1 /\
    forall p, In (EvDelete p) d -> dReceiptHandle p = ReceiptHandle m.
Proof.
  cbv zeta. destruct (handleMessage_chunk s) as (_ & Hm & Ht).
  cbv zeta in Hm, Ht. apply appended_app in Ht. split; [exact Hm|].
  eexists. split; [exact Ht|].
  destruct (fst (h m (mem s))) as [[e|e|t i|t]|];
    destruct (fst (DeleteMessage svc
                     (delete_request config m (snd (h m (mem s))))
                     (snd (h m (mem s))))) as [de|];
    cbn; repeat split; try lia;
    intros p Hp; repeat (destruct Hp as [Hp|Hp]; try discriminate);
    try contradiction; injection Hp as <-; reflexivity.
Qed.

End FurtherProcessor.

(** * Further properties of the dispatcher *)

Section FurtherDispatcher.

Variable Ext : Type.
Variables (config : ConfigRef) (svc : SQS Ext) (h : Handler Ext)
  (messages : list Message).

Local Abbreviation n := (numMessages messages).
Local Abbreviation mstep := (step config svc h messages).
Local Abbreviation mexec := (exec config svc h messages).
Local Abbreviation mdrain := (drain config svc h messages).
Local Abbreviation mmoves := (moves config svc h messages).

(** X4.  In every state [run] can reach, under every schedule, the
    counter of the wait group lies between 0 and the size of the batch:
    no [wg.Done()] drives it below zero.  From [wg.Add] on it is the
    number of goroutines that are still to finish, those not yet started
    included. *)
Theorem X4_wait_group_counter_in_bounds (s : State Ext) (sched : list Tid) :
  let r := mexec sched (run_init s) in
  (0 <= wg r <= Z.of_nat n)%Z /\
  exits (units r) <= List.length (units r) <= n /\
  (mpc r <> MInfo -> mpc r <> MAdd ->
   wg r = (Z.of_nat n - Z.of_nat (exits (units r)))%Z).
Proof.
  cbv zeta.
  destruct (Inv_exec config svc h sched (Inv_init messages s)) as [Hm Hc].
  pose proof (exits_le (units (mexec sched (run_init s)))) as Hle.
  assert (Hlen : List.length (units (mexec sched (run_init s))) <= n).
  { apply (f_equal (@List.length _)) in Hm.
    rewrite length_map, length_firstn in Hm. unfold numMessages. lia. }
  destruct (mpc (mexec sched (run_init s))) as [| |i| |];
    repeat split; try lia; try congruence;
    try (destruct Hc as [Hu Hw]; rewrite ?Hw; lia);
    try (destruct Hc as (Hl & Hi & Hw); rewrite ?Hw; lia);
    try (destruct Hc as (Hl & Hw & He); rewrite ?Hw; lia).
Qed.




Lemma exec_no_units_main (s : State Ext) sched (r : RunState Ext) :
  messages = [] -> units r = [] ->
  (mpc r = MInfo /\ st r = s \/
   mpc r <> MInfo /\ mem (st r) = mem s /\
   trace (st r) = trace s ++ [info_entry config messages s]) ->
  let r' := mexec sched r in
  units r' = [] /\
  (mpc r' = MInfo /\ st r' = s \/
   mpc r' <> MInfo /\ mem (st r') = mem s /\
   trace (st r') = trace s ++ [info_entry config messages s]).
Proof.
  intros Hm. cbv zeta. revert r.
  induction sched as [|t sched IH]; intros r Hu Hr; cbn; [auto|].
  destruct t as [|k]; cbn.
  - unfold step_main. destruct (mpc r) as [| |i| |] eqn:Hpc.
    + apply IH; [exact Hu|]. right. cbn.
      destruct Hr as [[_ ->] | [Hn _]]; [|congruence].
      repeat split; discriminate.
    + apply IH; [exact Hu|]. right. cbn.
      destruct Hr as [[Hn _] | [_ Hr]]; [discriminate|].
      split; [discriminate | exact Hr].
    + destruct (nth_error messages i) eqn:Hn.
      { rewrite Hm in Hn. destruct i; discriminate. }
      apply IH; [exact Hu|]. right. cbn.
      destruct Hr as [[Hn' _] | [_ Hr]]; [discriminate|].
      split; [discriminate | exact Hr].
    + destruct (wg r =? 0)%Z; [|rewrite <- Hpc in Hr; now apply IH].
      apply IH; [exact Hu|]. right. cbn.
      destruct Hr as [[Hn _] | [_ Hr]]; [discriminate|].
      split; [discriminate | exact Hr].
    + rewrite <- Hpc in Hr. now apply IH.
  - unfold step_unit. rewrite Hu. destruct k; cbn; now apply IH.
Qed.

Lemma run_final_no_messages (s : State Ext) (sched : list Tid) :
  messages = [] ->
  let f := run_final config svc h messages sched s in
  mpc f = MReturned /\
  units f = [] /\
  mem (st f) = mem s /\
  trace (st f) =
    trace s ++ [EvLog (Log (load config (mem s))) SevInfo
                  "worker: Received 0 messages"].
Proof.
  intros Hm. cbv zeta.
  destruct (run_final_spec config svc h messages sched s) as (_ & Hret & _).
  unfold run_final in *.
  destruct (@exec_no_units_main s sched (run_init s) Hm eq_refl
              (or_introl (conj eq_refl eq_refl))) as [Hu Hr].
  assert (Hd : forall fuel r,
            units r = [] ->
            (mpc r = MInfo /\ st r = s \/
             mpc r <> MInfo /\ mem (st r) = mem s /\
             trace (st r) = trace s ++ [info_entry config messages s]) ->
            units (mdrain fuel r) = [] /\
            (mpc (mdrain fuel r) = MInfo /\ st (mdrain fuel r) = s \/
             mpc (mdrain fuel r) <> MInfo /\ mem (st (mdrain fuel r)) = mem s /\
             trace (st (mdrain fuel r))
               = trace s ++ [info_entry config messages s])).
  { induction fuel as [|fuel IH]; intros r Hur Hrr; cbn; [auto|].
    destruct (mstep (pick r) r) as [r'|] eqn:Hs; [|auto].
    pose proof (@exec_no_units_main s [pick r] r Hm Hur Hrr) as H1.
    cbv zeta in H1. cbn in H1. rewrite Hs in H1.
    destruct H1 as [H1 H2]. now apply IH. }
  destruct (Hd (run_bound messages) _ Hu Hr) as [Hu' Hr'].
  split; [exact Hret|]. split; [exact Hu'|].
  destruct Hr' as [[Hi _] | (_ & Hmem & Ht)]; [congruence|].
  split; [exact Hmem|]. rewrite Ht. unfold info_entry. rewrite Hm.
  reflexivity.
Qed.

(** *** Properties that every step keeps *)

Section Chunks.

(** [R] is a property of the memory that the collaborators keep, [Q] a
    property of event lists that holds of what each action of the worker
    writes and that is closed under concatenation. *)
Variable R : Mem Ext -> Prop.
Variable Q : list Event -> Prop.

Hypothesis R_handler : handler_keeps R h.
Hypothesis R_delete : delete_keeps R svc.
Hypothesis Q_nil : Q [].
Hypothesis Q_app : forall a b, Q a -> Q b -> Q (a ++ b).
Hypothesis Q_log :
  forall mm sev text, R mm -> Q [EvLog (Log (load config mm)) sev text].
Hypothesis Q_handle :
  forall m s, R (mem s) ->
    Q (appended s (snd (handleMessage config svc m h s))).

Lemma handleMessage_mem_kept (m : Message) (s : State Ext) :
  R (mem s) -> R (mem (snd (handleMessage config svc m h s))).
Proof.
  intros Hs. destruct (handleMessage_chunk config svc m h s) as (_ & Hm & _).
  cbv zeta in Hm. rewrite Hm.
  destruct (acknowledges _); [apply R_delete|]; now apply R_handler.
Qed.

Lemma handleMessage_appends (m : Message) (s : State Ext) :
  trace (snd (handleMessage config svc m h s))
  = trace s ++ appended s (snd (handleMessage config svc m h s)).
Proof.
  destruct (handleMessage_chunk config svc m h s) as (_ & _ & Ht).
  cbv zeta in Ht. pose proof Ht as Ha. apply appended_app in Ha.
  rewrite Ha. exact Ht.
Qed.

Lemma ChunkInv_step (s : State Ext) t (r r' : RunState Ext) :
  ChunkInv R Q s r -> mstep t r = Some r' -> ChunkInv R Q s r'.
Proof.
  intros (HR & d & Hd & HQ) Hs. unfold ChunkInv.
  assert (Hext : forall s' c,
            R (mem s') -> trace s' = trace (st r) ++ c -> Q c ->
            R (mem s') /\ exists d', trace s' = trace s ++ d' /\ Q d').
  { intros s' c HR' Hc HQc. split; [exact HR'|].
    exists (d ++ c). split; [|now apply Q_app].
    rewrite Hc, Hd, app_assoc. reflexivity. }
  assert (Hsame : R (mem (st r)) /\
            exists d', trace (st r) = trace s ++ d' /\ Q d') by eauto.
  destruct t as [|k]; cbn in Hs.
  - unfold step_main in Hs. destruct (mpc r) as [| |i| |].
    + injection Hs as <-. cbn [st].
      eapply Hext; [exact HR | reflexivity | now apply Q_log].
    + injection Hs as <-. exact Hsame.
    + destruct (nth_error messages i); injection Hs as <-; exact Hsame.
    + destruct (wg r =? 0)%Z; [|discriminate].
      injection Hs as <-. exact Hsame.
    + discriminate.
  - unfold step_unit in Hs.
    destruct (nth_error (units r) k) as [[mk [|e| |]]|]; try discriminate.
    + pose proof (handleMessage_mem_kept mk _ HR) as HR'.
      pose proof (handleMessage_appends mk (st r)) as Ha.
      pose proof (Q_handle mk _ HR) as HQ'.
      destruct (handleMessage config svc mk h (st r)) as [err s'].
      injection Hs as <-. cbn [st snd] in *. eapply Hext; eauto.
    + injection Hs as <-. cbn [st].
      eapply Hext; [exact HR | reflexivity | now apply Q_log].
    + injection Hs as <-. exact Hsame.
Qed.

Lemma ChunkInv_exec (s : State Ext) sched (r : RunState Ext) :
  ChunkInv R Q s r -> ChunkInv R Q s (mexec sched r).
Proof.
  revert r; induction sched as [|t sched IH]; intros r Hr; cbn; [exact Hr|].
  destruct (mstep t r) as [r'|] eqn:Hs; [|now apply IH].
  apply IH. eapply ChunkInv_step; eauto.
Qed.

Lemma ChunkInv_drain (s : State Ext) fuel (r : RunState Ext) :
  ChunkInv R Q s r -> ChunkInv R Q s (mdrain fuel r).
Proof.
  revert r; induction fuel as [|fuel IH]; intros r Hr; cbn; [exact Hr|].
  destruct (mstep (pick r) r) as [r'|] eqn:Hs; [|exact Hr].
  apply IH. eapply ChunkInv_step; eauto.
Qed.

Lemma run_final_chunks (sched : list Tid) (s : State Ext) :
  R (mem s) ->
  let f := run_final config svc h messages sched s in
  R (mem (st f)) /\
  trace (st f) = trace s ++ appended s (st f) /\
  Q (appended s (st f)).
Proof.
  intros HR. cbv zeta. unfold run_final.
  assert (H0 : ChunkInv R Q s (run_init s)).
  { split; [exact HR|]. exists []. split; [now rewrite app_nil_r | exact Q_nil]. }
  destruct (ChunkInv_drain (run_bound messages) (ChunkInv_exec sched H0))
    as (HR' & d & Hd & HQ).
  pose proof Hd as Ha. apply appended_app in Ha. rewrite Ha. auto.
Qed.

End Chunks.

(** *** The events of a batch, whatever the schedule *)

Section Tally.

(** The handler answers [answer m] for [m] and the delete call for [m]
    answers [dout m] in every memory that satisfies [P]; [ab] forgets
    what of an event depends on the memory. *)
Variable P : Mem Ext -> Prop.
Variable ab : Event -> Event.
Variable cfg : Config.
Variables answer dout : Message -> option error.

Hypothesis P_handler : handler_keeps P h.
Hypothesis P_delete : delete_keeps P svc.
Hypothesis H_answer : forall m mm, P mm -> fst (h m mm) = answer m.
Hypothesis H_dout :
  forall m mm, P mm ->
    fst (DeleteMessage svc (delete_request config m mm) mm) = dout m.
Hypothesis ab_log :
  forall mm sev text, P mm ->
    ab (EvLog (Log (load config mm)) sev text) = ab (EvLog (Log cfg) sev text).
Hypothesis ab_delete :
  forall mm m, P mm ->
    ab (EvDelete (delete_request config m mm))
    = ab (EvDelete {| dQueueUrl := Some (QueueURL cfg);
                      dReceiptHandle := ReceiptHandle m |}).

Local Abbreviation not_info := (fun e : Event => negb (is_info e)).
Local Abbreviation sofar := (so_far cfg answer dout).
Local Abbreviation TInv := (TallyInv P ab cfg answer dout).

Lemma handleMessage_tally (m : Message) (s : State Ext) :
  P (mem s) ->
  let out := handleMessage config svc m h s in
  fst out = hm_result (answer m) (dout m) /\
  P (mem (snd out)) /\
  exists c,
    trace (snd out) = trace s ++ c /\
    filter not_info c = c /\
    map ab c = map ab (hm_chunk cfg (answer m) (dout m) m).
Proof.
  intros Hs. cbv zeta.
  destruct (handleMessage_chunk config svc m h s) as (Hr & Hm & Ht).
  cbv zeta in Hr, Hm, Ht.
  assert (H1 : P (snd (h m (mem s)))) by (now apply P_handler).
  assert (H2 : P (snd (DeleteMessage svc
                         (delete_request config m (snd (h m (mem s))))
                         (snd (h m (mem s)))))) by (now apply P_delete).
  rewrite (@H_answer m _ Hs) in Hr, Hm, Ht.
  rewrite (@H_dout m _ H1) in Hr, Ht.
  split; [exact Hr|]. split.
  { rewrite Hm. destruct (acknowledges (answer m)); assumption. }
  eexists. split; [exact Ht|].
  unfold hm_chunk, delete_chunk, deleted_entry.
  destruct (answer m) as [[e|e|t i|t]|]; destruct (dout m) as [de|];
    cbn [map filter is_info negb];
    rewrite ?(@ab_log _ _ _ H1), ?(@ab_log _ _ _ H2), ?(@ab_delete _ m H1);
    split; reflexivity.
Qed.

Lemma set_pc_so_far k pc (us : list (Message * UnitPc)) mk pc0 x :
  nth_error us k = Some (mk, pc0) ->
  sofar (mk, pc) = sofar (mk, pc0) ++ x ->
  Permutation (flat_map sofar (set_pc k pc us)) (flat_map sofar us ++ x).
Proof.
  revert k; induction us as [|[mk' p] us IH]; intros [|k] Hk Hx;
    cbn in Hk; try discriminate.
  - injection Hk as -> ->. cbn [set_pc flat_map]. rewrite Hx.
    rewrite <- !app_assoc. apply Permutation_app_head.
    apply Permutation_app_comm.
  - cbn [set_pc flat_map]. rewrite <- app_assoc.
    apply Permutation_app_head. now apply IH.
Qed.

Lemma set_pc_ok k pc (us : list (Message * UnitPc)) mk pc0 :
  nth_error us k = Some (mk, pc0) ->
  Forall (unit_ok answer dout) us ->
  unit_ok answer dout (mk, pc) ->
  Forall (unit_ok answer dout) (set_pc k pc us).
Proof.
  revert k; induction us as [|[mk' p] us IH]; intros [|k] Hk Hf Hu;
    cbn in Hk; try discriminate; inversion Hf; subst.
  - injection Hk as -> ->. now constructor.
  - cbn [set_pc]. constructor; eauto.
Qed.

Lemma TallyInv_step (s0 : State Ext) t (r r' : RunState Ext) :
  TInv s0 r -> mstep t r = Some r' -> TInv s0 r'.
Proof.
  intros (HP & Hok & d & Hd & Hp) Hs. unfold TallyInv.
  destruct t as [|k]; cbn in Hs.
  - unfold step_main in Hs. destruct (mpc r) as [| |i| |].
    + injection Hs as <-. cbn [st units mem snd Log_call].
      split; [exact HP|]. split; [exact Hok|].
      eexists (d ++ [_]). split.
      * unfold Log_call, bind, deref, emit. cbn. rewrite Hd, <- app_assoc.
        reflexivity.
      * rewrite filter_app. cbn. rewrite app_nil_r. exact Hp.
    + injection Hs as <-. cbn [st units]. eauto.
    + destruct (nth_error messages i) as [mi|]; injection Hs as <-;
        cbn [st units]; [|eauto].
      split; [exact HP|]. split.
      * apply Forall_app. split; [exact Hok|]. now repeat constructor.
      * exists d. split; [exact Hd|].
        rewrite flat_map_app. cbn. now rewrite !app_nil_r.
    + destruct (wg r =? 0)%Z; [|discriminate].
      injection Hs as <-. cbn [st units]. eauto.
    + discriminate.
  - unfold step_unit in Hs.
    destruct (nth_error (units r) k) as [[mk pc]|] eqn:Hk; [|discriminate].
    assert (Hu : unit_ok answer dout (mk, pc)).
    { eapply Forall_forall; [exact Hok|]. eapply nth_error_In; eauto. }
    destruct pc as [|e| |].
    + destruct (handleMessage_tally mk (st r) HP)
        as (Hr & HP' & c & Hc & Hni & Hab).
      destruct (handleMessage config svc mk h (st r)) as [err s'].
      cbn [fst snd] in Hr, HP', Hc. injection Hs as <-. cbn [st units].
      split; [exact HP'|]. split.
      { eapply set_pc_ok; eauto. unfold unit_ok. cbn [snd fst].
        destruct err; [now rewrite Hr | exact I]. }
      exists (d ++ c). split; [rewrite Hc, Hd, app_assoc; reflexivity|].
      rewrite filter_app, Hni, map_app, Hab.
      etransitivity;
        [apply Permutation_app_tail; exact Hp|].
      rewrite <- map_app. apply Permutation_map. symmetry.
      eapply set_pc_so_far; [exact Hk|].
      destruct err; unfold so_far, unit_chunk; cbn [snd fst app];
        [reflexivity|].
      rewrite <- Hr. now rewrite app_nil_r.
    + injection Hs as <-. cbn [st units].
      unfold unit_ok in Hu. cbn [snd fst] in Hu.
      split; [exact HP|]. split.
      { eapply set_pc_ok; eauto; exact I. }
      eexists (d ++ [_]). split.
      * unfold Log_call, bind, deref, emit. cbn. rewrite Hd, <- app_assoc.
        reflexivity.
      * rewrite filter_app. cbn [filter is_info negb].
        rewrite map_app. cbn [map]. rewrite (@ab_log _ SevError (Error e) HP).
        etransitivity; [apply Permutation_app_tail; exact Hp|].
        change [ab (EvLog (Log cfg) SevError (Error e))]
          with (map ab [EvLog (Log cfg) SevError (Error e)]).
        rewrite <- map_app. apply Permutation_map. symmetry.
        eapply set_pc_so_far; [exact Hk|].
        unfold so_far, unit_chunk. cbn [snd fst]. now rewrite Hu.
    + injection Hs as <-. cbn [st units].
      split; [exact HP|]. split.
      { eapply set_pc_ok; eauto; exact I. }
      exists d. split; [exact Hd|].
      etransitivity; [exact Hp|]. apply Permutation_map. symmetry.
      rewrite <- (app_nil_r (flat_map sofar (units r))).
      eapply set_pc_so_far; [exact Hk|]. now rewrite app_nil_r.
    + discriminate.
Qed.

Lemma TallyInv_exec (s0 : State Ext) sched (r : RunState Ext) :
  TInv s0 r -> TInv s0 (mexec sched r).
Proof.
  revert r; induction sched as [|t sched IH]; intros r Hr; cbn; [exact Hr|].
  destruct (mstep t r) as [r'|] eqn:Hs; [|now apply IH].
  apply IH. eapply TallyInv_step; eauto.
Qed.

Lemma TallyInv_drain (s0 : State Ext) fuel (r : RunState Ext) :
  TInv s0 r -> TInv s0 (mdrain fuel r).
Proof.
  revert r; induction fuel as [|fuel IH]; intros r Hr; cbn; [exact Hr|].
  destruct (mstep (pick r) r) as [r'|] eqn:Hs; [|exact Hr].
  apply IH. eapply TallyInv_step; eauto.
Qed.

Lemma so_far_exited (us : list (Message * UnitPc)) :
  forallb exited us = true ->
  flat_map sofar us
  = flat_map (fun m => unit_chunk cfg (answer m) (dout m) m) (map fst us).
Proof.
  induction us as [|[mk pc] us IH]; cbn; [reflexivity|].
  intros H; apply andb_prop in H as [He Hd].
  destruct pc; try discriminate. rewrite (IH Hd). reflexivity.
Qed.

Lemma run_event_not_info (d : list Event) :
  forallb run_event d = true -> filter not_info d = d.
Proof.
  induction d as [|x d IH]; cbn; [reflexivity|].
  intros H; apply andb_prop in H as [Hx Hd]. rewrite (IH Hd).
  destruct x as [? [] ?| | | |]; cbn in *; try discriminate; reflexivity.
Qed.

(** Under any schedule, the events [run] writes after its info entry are
    those of the goroutines of the batch, in some order. *)
Lemma run_final_tally (sched : list Tid) (s : State Ext) :
  P (mem s) ->
  let f := run_final config svc h messages sched s in
  exists d,
    appended s (st f) = info_entry config messages s :: d /\
    Permutation (map ab d)
      (map ab (flat_map (fun m => unit_chunk cfg (answer m) (dout m) m)
                 messages)).
Proof.
  intros HP. cbv zeta.
  destruct (run_final_spec config svc h messages sched s) as (Hf & Hm & Ht).
  destruct (Inv_returned Hf Hm) as (Hu & He & _).
  assert (H0 : TInv s (run_init s)).
  { split; [exact HP|]. split; [constructor|].
    exists []. split; [now rewrite app_nil_r | constructor]. }
  pose proof (TallyInv_drain (run_bound messages) (TallyInv_exec sched H0))
    as (_ & _ & d & Hd & Hp).
  fold (run_final config svc h messages sched s) in Hd, Hp.
  unfold TraceInv in Ht. rewrite Hm in Ht. destruct Ht as (d1 & Hd1 & Hr & _).
  assert (d = info_entry config messages s :: d1)
    by (eapply app_inv_head; rewrite <- Hd; exact Hd1).
  subst d. exists d1. split; [now apply appended_app|].
  cbn [filter is_info info_entry negb] in Hp.
  rewrite (run_event_not_info _ Hr), (so_far_exited _ He), Hu in Hp.
  exact Hp.
Qed.

End Tally.

Lemma count_perm (p : Event -> bool) (l l' : list Event) :
  Permutation l l' -> count p l = count p l'.
Proof.
  unfold count. induction 1; cbn; try congruence.
  - destruct (p x); cbn; congruence.
  - destruct (p x), (p y); reflexivity.
Qed.

Lemma count_erase (p : Event -> bool) (l : list Event) :
  (forall e, p (erase e) = p e) -> count p (map erase l) = count p l.
Proof.
  intros Hp. unfold count. induction l as [|e l IH]; cbn; [reflexivity|].
  rewrite Hp. destruct (p e); cbn; congruence.
Qed.

Lemma count_flat_map (p : Event -> bool) (f : Message -> list Event)
  (g : Message -> bool) (l : list Message) :
  (forall m, count p (f m) = if g m then 1 else 0) ->
  count p (flat_map f l) = List.length (filter g l).
Proof.
  intros Hf. induction l as [|m l IH]; [reflexivity|].
  cbn [flat_map filter]. rewrite count_app, Hf, IH.
  destruct (g m); reflexivity.
Qed.

(** X6.  When the answers of the handler and of the delete call do not
    depend on the memory, and neither touches the configuration, the
    events of a batch are the same under every schedule, up to their
    order: after the info entry, for each message its handler call, what
    [handleMessage] writes for the two answers, and the error entry of
    the goroutine when [handleMessage] returned an error. *)
Theorem X6_batch_events_do_not_depend_on_schedule
  (cfg : Config) (answer : Message -> option error)
  (dres : DeleteMessageInput -> option error)
  (s : State Ext) (sched : list Tid) :
  load config (mem s) = cfg ->
  handler_keeps (fun mm => load config mm = cfg) h ->
  delete_keeps (fun mm => load config mm = cfg) svc ->
  (forall m mm, fst (h m mm) = answer m) ->
  (forall p mm, fst (DeleteMessage svc p mm) = dres p) ->
  let f := run_final config svc h messages sched s in
  exists d,
    appended s (st f) = info_entry config messages s :: d /\
    Permutation d
      (flat_map
         (fun m =>
            unit_chunk cfg (answer m)
              (dres {| dQueueUrl := Some (QueueURL cfg);
                       dReceiptHandle := ReceiptHandle m |}) m)
         messages).
Proof.
  intros Hs Hkh Hkd Ha Hd. cbv zeta.
  destruct (@run_final_tally (fun mm => load config mm = cfg)
              (fun e => e) cfg answer
              (fun m => dres {| dQueueUrl := Some (QueueURL cfg);
                                dReceiptHandle := ReceiptHandle m |})
              Hkh Hkd) with (sched := sched) (s := s) as (d & Hd1 & Hp).
  - intros m mm _. apply Ha.
  - intros m mm Hmm. rewrite Hd. unfold delete_request. now rewrite Hmm.
  - intros mm sev text Hmm. now rewrite Hmm.
  - intros mm m Hmm. unfold delete_request. now rewrite Hmm.
  - exact Hs.
  - exists d. split; [exact Hd1|]. now rewrite !map_id in Hp.
Qed.

(** X7.  When the handler's answer depends on the message alone and
    every delete call succeeds, then under every schedule a batch gives
    one handler call for each message, one delete call and one debug
    entry for each message answered with nil or with an invalid-event
    error, and one error entry for each message answered with an error of
    either kind. *)
Theorem X7_batch_counts (answer : Message -> option error)
  (s : State Ext) (sched : list Tid) :
  (forall m mm, fst (h m mm) = answer m) ->
  (forall p mm, fst (DeleteMessage svc p mm) = None) ->
  let d := appended s (st (run_final config svc h messages sched s)) in
  count is_handle d = n /\
  count is_delete d
    = List.length (filter (fun m => acknowledges (answer m)) messages) /\
  count is_debug d = count is_delete d /\
  count is_error_entry d
    = List.length (filter (fun m => failed (answer m)) messages).
Proof.
  intros Ha Hd. cbv zeta.
  destruct (@run_final_tally (fun _ => True) erase DefaultConfig answer
              (fun _ => None)) with (sched := sched) (s := s)
    as (d & Hd1 & Hp);
    try (unfold handler_keeps, delete_keeps; intros; exact I);
    try reflexivity.
  - intros m mm _. apply Ha.
  - intros m mm _. apply Hd.
  - rewrite Hd1.
    assert (Hc : forall (p : Event -> bool) (g : Message -> bool),
              p (info_entry config messages s) = false ->
              (forall e, p (erase e) = p e) ->
              (forall m, count p (unit_chunk DefaultConfig (answer m) None m)
                         = if g m then 1 else 0) ->
              count p (info_entry config messages s :: d)
              = List.length (filter g messages)).
    { intros p g Hi He Hm.
      change (info_entry config messages s :: d)
        with ([info_entry config messages s] ++ d).
      rewrite count_app. unfold count at 1. cbn [filter]. rewrite Hi.
      cbn [List.length plus].
      rewrite <- (count_erase _ _ He), (count_perm _ Hp), (count_erase _ _ He).
      now apply count_flat_map. }
    assert (Hall : List.length (filter (fun _ : Message => true) messages) = n).
    { unfold numMessages. clear. induction messages; cbn; congruence. }
    repeat split.
    + rewrite <- Hall. apply Hc; try reflexivity.
      * now intros [? [] ?| | | |].
      * intros m. destruct (answer m) as [[e|e|t i|t]|]; reflexivity.
    + apply Hc; try reflexivity.
      * now intros [? [] ?| | | |].
      * intros m. destruct (answer m) as [[e|e|t i|t]|]; reflexivity.
    + rewrite (Hc is_debug (fun m => acknowledges (answer m))),
        (Hc is_delete (fun m => acknowledges (answer m))); try reflexivity.
      * now intros [? [] ?| | | |].
      * intros m. destruct (answer m) as [[e|e|t i|t]|]; reflexivity.
      * now intros [? [] ?| | | |].
      * intros m. destruct (answer m) as [[e|e|t i|t]|]; reflexivity.
    + apply Hc; try reflexivity.
      * now intros [? [] ?| | | |].
      * intros m. destruct (answer m) as [[e|e|t i|t]|]; reflexivity.
Qed.

End FurtherDispatcher.

(** X10.  On an empty batch [run] starts no goroutine: under every
    schedule it writes the info entry, which then counts 0 messages, and
    nothing else; it calls neither the handler nor the queue and leaves
    the memory as it was. *)
Theorem X10_empty_batch_only_logs (Ext : Type) (config : ConfigRef)
  (svc : SQS Ext) (h : Handler Ext) (s : State Ext) (sched : list Tid) :
  let f := run_final config svc h [] sched s in
  mpc f = MReturned /\
  units f = [] /\
  mem (st f) = mem s /\
  trace (st f) =
    trace s ++ [EvLog (Log (load config (mem s))) SevInfo
                  "worker: Received 0 messages"].
Proof.
  exact (@run_final_no_messages Ext config svc h [] s sched eq_refl).
Qed.

(** * Further properties of the poller *)

Section FurtherPoller.

Variable Ext : Type.
Variables (svc : SQS Ext) (h : Handler Ext).

Section StartChunks.

(** As for [run]: [R] is kept by the collaborators, [Q] holds of what
    each action writes and is closed under concatenation; [c] is the
    configuration pointer the loop works with. *)
Variable c : ConfigRef.
Variable R : Mem Ext -> Prop.
Variable Q : list Event -> Prop.

Hypothesis R_handler : handler_keeps R h.
Hypothesis R_delete : delete_keeps R svc.
Hypothesis R_receive : receive_keeps R svc.
Hypothesis Q_nil : Q [].
Hypothesis Q_app : forall a b, Q a -> Q b -> Q (a ++ b).
Hypothesis Q_log :
  forall mm sev text, R mm -> Q [EvLog (Log (load c mm)) sev text].
Hypothesis Q_handle :
  forall m s, R (mem s) -> Q (appended s (snd (handleMessage c svc m h s))).
Hypothesis Q_receive :
  forall mm, R mm -> Q [EvReceive (receive_request (load c mm))].
Hypothesis Q_stdlog : forall text, Q [EvStdLog text].

Lemma Start_body_chunks sched (config : ConfigPtr) (s : State Ext) :
  effective config = c -> R (mem s) ->
  let out := Start_body svc h sched config s in
  R (mem (snd out)) /\
  exists d, trace (snd out) = trace s ++ d /\ Q d.
Proof.
  intros Hc HR. cbv zeta. rewrite Start_body_unfold. cbn [snd].
  assert (HR1 : R (mem (after_receive svc config s)))
    by (cbn; now apply R_receive).
  assert (HQ1 : Q [polling_entry config s; EvReceive (request config s)]).
  { apply (@Q_app [_] [_]); unfold polling_entry, request; rewrite Hc.
    - now apply Q_log.
    - now apply Q_receive. }
  destruct (snd (received svc config s)) as [e|].
  - split; [exact HR1|]. eexists. split.
    + cbn [trace after_receive]. rewrite <- app_assoc. reflexivity.
    + apply Q_app; [exact HQ1 | apply Q_stdlog].
  - destruct (dispatches svc config s).
    + rewrite Hc.
      destruct (run_final_chunks c
                  (Messages (fst (received svc config s))) Q
                  R_handler R_delete Q_nil Q_app Q_log Q_handle sched
                  (after_receive svc config s) HR1) as (HR2 & Ht & HQ2).
      split; [exact HR2|]. eexists. split.
      * rewrite Ht. cbn [trace after_receive]. rewrite <- app_assoc.
        reflexivity.
      * apply Q_app; [exact HQ1 | exact HQ2].
    + split; [exact HR1|]. eexists. split; [reflexivity | exact HQ1].
Qed.

Lemma Start_chunks scheds (config : ConfigPtr) (s : State Ext) :
  effective config = c -> R (mem s) ->
  let out := Start svc h scheds config s in
  R (mem (snd out)) /\
  trace (snd out) = trace s ++ appended s (snd out) /\
  Q (appended s (snd out)).
Proof.
  intros Hc HR. cbv zeta.
  enough (H : R (mem (snd (Start svc h scheds config s))) /\
              exists d, trace (snd (Start svc h scheds config s))
                        = trace s ++ d /\ Q d).
  { destruct H as (H1 & d & Hd & HQ). pose proof Hd as Ha.
    apply appended_app in Ha. rewrite Ha. auto. }
  revert config s Hc HR.
  induction scheds as [|sched rest IH]; intros config s Hc HR.
  - split; [exact HR|]. exists []. split; [now rewrite app_nil_r | exact Q_nil].
  - rewrite Start_cons, Start_body_config.
    destruct (Start_body_chunks sched config s Hc HR) as (HR1 & d1 & Hd1 & HQ1).
    destruct (IH (Some (effective config))
                (snd (Start_body svc h sched config s)) Hc HR1)
      as (HR2 & d2 & Hd2 & HQ2).
    split; [exact HR2|]. exists (d1 ++ d2). split; [|now apply Q_app].
    rewrite Hd2, Hd1, app_assoc. reflexivity.
Qed.

End StartChunks.

(** X3.  The worker writes to the memory only through its collaborators:
    a property of the memory that the handler, the receive call and the
    delete call keep still holds after any number of iterations of
    [Start], under any schedules.  In particular [Start] itself never
    changes [DefaultConfig] or a configuration of the caller. *)
Theorem X3_worker_keeps_what_collaborators_keep
  (P : Mem Ext -> Prop) scheds (config : ConfigPtr) (s : State Ext) :
  handler_keeps P h -> delete_keeps P svc -> receive_keeps P svc ->
  P (mem s) ->
  P (mem (snd (Start svc h scheds config s))).
Proof.
  intros Hh Hd Hr Hs.
  apply (@Start_chunks (effective config) P (fun _ => True));
    auto.
Qed.

Lemma acks_single (e : Event) :
  is_delete e = false -> acks_follow_handling [e].
Proof.
  intros He t1 p t2 H. destruct t1 as [|x t1]; cbn in H.
  - injection H as ->. discriminate.
  - injection H as _ H. destruct t1; discriminate.
Qed.

Lemma acks_app (a b : list Event) :
  acks_follow_handling a -> acks_follow_handling b ->
  acks_follow_handling (a ++ b).
Proof.
  intros Ha Hb t1 p t2 H.
  apply app_eq_app in H as [l [[H1 H2] | [H1 H2]]].
  - destruct l as [|x l]; cbn in H2.
    + symmetry in H2. destruct (Hb [] p t2 H2) as (m & [] & _).
    + injection H2 as <- _. apply (Ha _ _ _ H1).
  - destruct (Hb _ _ _ H2) as (m & Hin & Hm). exists m. split; [|exact Hm].
    rewrite H1. apply in_or_app. now right.
Qed.

(** X9.  In everything [Start] writes, over any number of iterations and
    under any schedules, each delete call comes after a handler call for
    a message with the same receipt handle: the worker never deletes a
    message it has not handed to the handler. *)
Theorem X9_deletes_only_what_was_handled
  scheds (config : ConfigPtr) (s : State Ext) :
  acks_follow_handling (appended s (snd (Start svc h scheds config s))).
Proof.
  apply (@Start_chunks (effective config) (fun _ => True)
           acks_follow_handling); auto.
  - now intros m mm _.
  - now intros p mm _.
  - now intros p mm _.
  - intros t1 p t2 H. destruct t1; discriminate.
  - apply acks_app.
  - intros. now apply acks_single.
  - intros m s0 _.
    destruct (handleMessage_chunk (effective config) svc m h s0)
      as (_ & _ & Hc).
    cbv zeta in Hc. apply appended_app in Hc. rewrite Hc.
    intros t1 p t2 H. destruct t1 as [|x t1]; cbn in H; [discriminate|].
    injection H as <- H. exists m. split; [now left|].
    assert (Hin : In (EvDelete p) (t1 ++ EvDelete p :: t2))
      by (apply in_or_app; right; now left).
    rewrite <- H in Hin. clear H.
    destruct (fst (h m (mem s0))) as [[e|e|t i|t]|];
      destruct (fst (DeleteMessage svc
                       (delete_request (effective config) m
                          (snd (h m (mem s0))))
                       (snd (h m (mem s0)))));
      cbn in Hin;
      repeat (destruct Hin as [Hin|Hin]; try discriminate);
      try contradiction; injection Hin as <-; reflexivity.
  - intros. now apply acks_single.
  - intros. now apply acks_single.
Qed.


(** X11.  There is no backoff.  Against a queue whose receive call
    always fails, [k] iterations of [Start] issue [k] receive calls and
    write [k] lines on the standard logger, three events an iteration;
    the handler is never called and nothing is deleted. *)
Theorem X11_failing_queue_is_polled_without_pause
  scheds (config : ConfigPtr) (s : State Ext) :
  (forall p mm, failed (snd (fst (ReceiveMessage svc p mm))) = true) ->
  let d := appended s (snd (Start svc h scheds config s)) in
  List.length d = 3 * List.length scheds /\
  count is_receive d = List.length scheds /\
  count is_stdlog d = List.length scheds /\
  count is_handle d = 0 /\
  count is_delete d = 0.
Proof.
  intros Hfail. cbv zeta.
  enough (H : exists d,
            trace (snd (Start svc h scheds config s)) = trace s ++ d /\
            List.length d = 3 * List.length scheds /\
            count is_receive d = List.length scheds /\
            count is_stdlog d = List.length scheds /\
            count is_handle d = 0 /\ count is_delete d = 0).
  { destruct H as (d & Hd & H). apply appended_app in Hd. now rewrite Hd. }
  revert config s. induction scheds as [|sched rest IH]; intros config s.
  - exists []. cbn. rewrite app_nil_r. repeat split.
  - rewrite Start_cons, Start_body_config.
    assert (Hb : exists e,
              trace (snd (Start_body svc h sched config s)) =
                trace s ++ [polling_entry config s;
                            EvReceive (request config s);
                            EvStdLog e]).
    { rewrite Start_body_unfold. cbn [snd].
      pose proof (Hfail (request config s) (mem s)) as Hf.
      unfold received.
      destruct (snd (fst (ReceiveMessage svc (request config s) (mem s))))
        as [e|]; [|discriminate].
      exists (Error e). cbn. now rewrite <- app_assoc. }
    destruct Hb as (e & Hb).
    destruct (IH (Some (effective config))
                (snd (Start_body svc h sched config s)))
      as (d & Hd & Hlen & H1 & H2 & H3 & H4).
    eexists. split; [rewrite Hd, Hb, <- app_assoc; reflexivity|].
    rewrite !count_app, length_app, Hlen, H1, H2, H3, H4.
    cbn [List.length]. unfold count. cbn. repeat split; lia.
Qed.

End FurtherPoller.

(** *** The further properties on the demo world *)

Lemma X3_witness :
  let P := fun mm : Mem nat => var_DefaultConfig mm = DefaultConfig in
  handler_keeps P (always None) /\
  delete_keeps P (client [msg_a] None None) /\
  receive_keeps P (client [msg_a] None None) /\
  P (mem Demo.st0) /\
  P (mem (snd (Start (client [msg_a] None None) (always None) [[]; []] None
                 Demo.st0))).
Proof.
  cbv zeta.
  assert (H1 : handler_keeps
                 (fun mm : Mem nat => var_DefaultConfig mm = DefaultConfig)
                 (always None)) by (intros m mm H; exact H).
  assert (H2 : delete_keeps
                 (fun mm : Mem nat => var_DefaultConfig mm = DefaultConfig)
                 (client [msg_a] None None)) by (intros p mm H; exact H).
  assert (H3 : receive_keeps
                 (fun mm : Mem nat => var_DefaultConfig mm = DefaultConfig)
                 (client [msg_a] None None)) by (intros p mm H; exact H).
  split; [exact H1|]. split; [exact H2|]. split; [exact H3|].
  split; [reflexivity|].
  exact (@X3_worker_keeps_what_collaborators_keep nat
           (client [msg_a] None None) (always None)
           (fun mm => var_DefaultConfig mm = DefaultConfig)
           [[]; []] None Demo.st0 H1 H2 H3 eq_refl).
Defined.

Lemma X6_witness :
  let cfg := DefaultConfigForQueueURL queue in
  let svc := client [] None None in
  let sched := [Main; Main; Main; Main; Unit 1; Unit 0; Unit 1] in
  load (RefHeap 0) (mem Demo.st0) = cfg /\
  (forall m mm, fst (picky m mm) = verdict m) /\
  (forall p mm, fst (DeleteMessage svc p mm) = None) /\
  exists d,
    appended Demo.st0
      (st (run_final (RefHeap 0) svc picky [msg_a; msg_c] sched Demo.st0))
    = info_entry (RefHeap 0) [msg_a; msg_c] Demo.st0 :: d /\
    Permutation d
      (unit_chunk cfg (verdict msg_a) None msg_a
         ++ unit_chunk cfg (verdict msg_c) None msg_c).
Proof.
  cbv zeta. split; [reflexivity|]. split; [reflexivity|].
  split; [reflexivity|].
  destruct (@X6_batch_events_do_not_depend_on_schedule nat (RefHeap 0)
              (client [] None None) picky [msg_a; msg_c]
              (DefaultConfigForQueueURL queue) verdict (fun _ => None)
              Demo.st0 [Main; Main; Main; Main; Unit 1; Unit 0; Unit 1]
              eq_refl
              (fun m mm H => H) (fun p mm H => H)
              (fun m mm => eq_refl) (fun p mm => eq_refl))
    as (d & Hd & Hp).
  exists d. split; [exact Hd|].
  cbn [flat_map] in Hp. rewrite app_nil_r in Hp. exact Hp.
Defined.

Lemma X7_witness :
  let svc := client [] None None in
  let d := appended Demo.st0
             (st (run_final (RefHeap 0) svc picky [msg_a; msg_b; msg_c]
                    [Unit 0; Main; Main; Main; Unit 0] Demo.st0)) in
  (forall m mm, fst (picky m mm) = verdict m) /\
  (forall p mm, fst (DeleteMessage svc p mm) = None) /\
  count is_handle d = 3 /\
  count is_delete d = 2 /\
  count is_debug d = 2 /\
  count is_error_entry d = 2.
Proof.
  cbv zeta. split; [reflexivity|]. split; [reflexivity|].
  destruct (@X7_batch_counts nat (RefHeap 0) (client [] None None) picky
              [msg_a; msg_b; msg_c] verdict Demo.st0
              [Unit 0; Main; Main; Main; Unit 0]
              (fun m mm => eq_refl) (fun p mm => eq_refl))
    as (H1 & H2 & H3 & H4).
  split; [exact H1|]. split; [exact H2|]. split; [|exact H4].
  rewrite H3. exact H2.
Defined.


Lemma X11_witness :
  let svc := client [msg_a] (Some denied) None in
  let d := appended Demo.st0
             (snd (Start svc (always None) [[]; []; []] None Demo.st0)) in
  (forall p mm, failed (snd (fst (ReceiveMessage svc p mm))) = true) /\
  List.length d = 9 /\
  count is_receive d = 3 /\
  count is_handle d = 0.
Proof.
  cbv zeta. split; [reflexivity|].
  destruct (@X11_failing_queue_is_polled_without_pause nat
              (client [msg_a] (Some denied) None) (always None)
              [[]; []; []] None Demo.st0 (fun p mm => eq_refl))
    as (H1 & H2 & _ & H3 & _).
  split; [exact H1|]. split; [exact H2 | exact H3].
Defined.
